(** * Verification of package [process] (process.go)

    A shallow embedding of the process supervisor: the [Message] wire
    format, the [messageWriter] output relay, the [limiter] goroutine,
    the [uniq] number source and the [StartProcess] / [wait] / [Kill]
    life cycle, followed by the properties proved about them.

    Conventions of the embedding.
    - A Go [string] is a sequence of bytes: Rocq's [string] (a list of
      8-bit [ascii]).  A [[]byte] is a [list ascii].
    - A Go [int] is a 64-bit two's complement integer: a [Z] with the
      wrap-around of [n++] written out ([int_incr]).
    - A channel is represented by the sequence of operations that its
      senders perform on it.  The operations are taken to complete: the
      channel has a receiver, and nobody but the code modelled here
      closes it.
    - A goroutine is a transition function over its local state; the
      goroutines of one process are composed by a labelled step
      function ([step]), one label for each statement that can run
      next.
    - The operating system is a parameter: the answer to [cmd.Start()],
      the output of the child and its exit status. *)

From Stdlib Require Import ZArith List String Ascii Bool Lia.
Import ListNotations.

Local Open Scope string_scope.
Local Open Scope list_scope.
Local Open Scope Z_scope.

(* ================================================================== *)
(** * Part I: the program                                              *)
(* ================================================================== *)

(** ** Go's [int] *)

Definition int_bits : Z := 64.
Definition min_int : Z := - 2 ^ (int_bits - 1).
Definition max_int : Z := 2 ^ (int_bits - 1) - 1.

(** Reduction of a mathematical integer to the representable range. *)
Definition int_wrap (z : Z) : Z :=
  (z - min_int) mod 2 ^ int_bits + min_int.

(** [n++] on an [int]. *)
Definition int_incr (n : Z) : Z := int_wrap (n + 1).

(** ** Messages *)

(** [type Message struct { Id, Kind, Body string }] *)
Record Message : Type := mkMessage {
  Id : string;
  Kind : string;
  Body : string
}.

(** [const msgLimit = 1000] *)
Definition msgLimit : Z := 1000.

(** Go's [error] interface: a value with an [Error() string] method. *)
Record error : Type := mkError { Error : string }.

(** [errors.New(text)] *)
Definition errors_New (text : string) : error := mkError text.

(** ** Channels of messages *)

(** The operations a sender can perform on a [chan<- *Message]. *)
Inductive chan_op : Type :=
| Send (m : Message)
| Close.

(** A channel is the history of the operations completed on it, oldest
    first. *)
Definition chan : Type := list chan_op.

(** ** The output relay: [messageWriter] *)

(** [type messageWriter struct { id, kind string; out chan<- *Message }].
    The [out] field is the channel whose history [Write] extends. *)
Record messageWriter : Type := mkWriter {
  w_id : string;
  w_kind : string
}.

(** [string(b)] for [b []byte]: the same bytes. *)
Definition string_of_bytes (b : list ascii) : string :=
  string_of_list_ascii b.

(** [len(b)] as an [int]. *)
Definition len {A : Type} (l : list A) : Z := Z.of_nat (List.length l).

(** [func (w *messageWriter) Write(b []byte) (n int, err error)]:
    the new history of [w.out] and the returned pair. *)
Definition Write (w : messageWriter) (b : list ascii) (out : chan)
  : chan * (Z * option error) :=
  (out ++ [Send (mkMessage (w_id w) (w_kind w) (string_of_bytes b))],
   (len b, None)).

(** ** The output limiter *)

(** What the limiter goroutine does to its two outgoing channels. *)
Inductive action : Type :=
| ToDest (m : Message)      (* dest <- m *)
| ToKill (m : Message).     (* kill <- m *)

(** What the [range ch] loop observes on its input channel. *)
Inductive input : Type :=
| Recv (m : Message)
| Closed.

(** How one iteration of the loop body leaves the loop. *)
Inductive control : Type :=
| Next        (* fell out of the switch: [n++] is executed *)
| Return.     (* [return] inside the first case *)

Definition is_end (m : Message) : bool := (Kind m =? "end")%string.

(** The [switch] statement of the loop body, without the [n++] that
    follows it. *)
Definition limiter_switch (n : Z) (m : Message) : list action * control :=
  if (n <? msgLimit) || is_end m then
    (* dest <- m; if m.Kind == "end" { return } *)
    ([ToDest m], if is_end m then Return else Next)
  else if n =? msgLimit then
    (* kill <- &Message{Id: m.Id, Kind: "kill"} *)
    ([ToKill (mkMessage (Id m) "kill" "")], Next)
  else
    ([], Next).

(** One iteration of [for m := range ch { switch {...}; n++ }]: the
    actions performed, the value of [n] afterwards and whether the
    goroutine goes on. *)
Definition limiter_body (n : Z) (m : Message) : list action * Z * control :=
  match limiter_switch n m with
  | (acts, Return) => (acts, n, Return)
  | (acts, Next) => (acts, int_incr n, Next)
  end.

(** Where the goroutine is once its input is used up. *)
Inductive outcome : Type :=
| Blocked (n : Z)     (* waiting in [range ch] for the next message *)
| Exited (n : Z).     (* the goroutine has finished *)

(** The goroutine started by [limiter], run on the sequence of events of
    its input channel from counter value [n]. *)
Fixpoint limiter_loop (n : Z) (ch : list input) : list action * outcome :=
  match ch with
  | [] => ([], Blocked n)
  | Closed :: _ => ([], Exited n)
  | Recv m :: ch' =>
      match limiter_body n m with
      | (acts, n', Return) => (acts, Exited n')
      | (acts, n', Next) =>
          let (rest, o) := limiter_loop n' ch' in (acts ++ rest, o)
      end
  end.

(** [func limiter(kill, dest chan<- *Message) chan<- *Message]: the
    goroutine starts with [n := 0]. *)
Definition limiter (ch : list input) : list action * outcome :=
  limiter_loop 0 ch.

(** The messages delivered to [dest] and to [kill]. *)
Definition to_dest (acts : list action) : list Message :=
  flat_map (fun a => match a with ToDest m => [m] | ToKill _ => [] end) acts.

Definition to_kill (acts : list action) : list Message :=
  flat_map (fun a => match a with ToKill m => [m] | ToDest _ => [] end) acts.

Definition non_terminal (m : Message) : bool := negb (is_end m).

(** ** Conversion of an integer to a string: [string(i)] *)

(** Go converts an integer to the string that holds the UTF-8 encoding
    of the code point of that value; a value that is not a valid code
    point (negative, above [maxRune], or a surrogate) gives the encoding
    of [runeError].  The encoding is written with the shifts and masks
    of package [unicode/utf8]. *)

Definition runeError : Z := 0xFFFD.
Definition maxRune : Z := 0x10FFFF.
Definition surrogateMin : Z := 0xD800.
Definition surrogateMax : Z := 0xDFFF.
Definition rune1Max : Z := 0x7F.
Definition rune2Max : Z := 0x7FF.
Definition rune3Max : Z := 0xFFFF.
Definition tx : Z := 0x80.
Definition t2 : Z := 0xC0.
Definition t3 : Z := 0xE0.
Definition t4 : Z := 0xF0.
Definition maskx : Z := 0x3F.

(** [byte(z)]: the low eight bits. *)
Definition byte_of (z : Z) : ascii := ascii_of_N (Z.to_N (z mod 256)).

(** The code points that have an encoding of their own. *)
Definition valid_rune (v : Z) : bool :=
  (0 <=? v) && (v <=? maxRune) &&
  negb ((surrogateMin <=? v) && (v <=? surrogateMax)).

(** UTF-8 encoding of a valid code point. *)
Definition encoderune (r : Z) : list ascii :=
  if r <=? rune1Max then
    [byte_of r]
  else if r <=? rune2Max then
    [byte_of (Z.lor t2 (Z.shiftr r 6));
     byte_of (Z.lor tx (Z.land r maskx))]
  else if r <=? rune3Max then
    [byte_of (Z.lor t3 (Z.shiftr r 12));
     byte_of (Z.lor tx (Z.land (Z.shiftr r 6) maskx));
     byte_of (Z.lor tx (Z.land r maskx))]
  else
    [byte_of (Z.lor t4 (Z.shiftr r 18));
     byte_of (Z.lor tx (Z.land (Z.shiftr r 12) maskx));
     byte_of (Z.lor tx (Z.land (Z.shiftr r 6) maskx));
     byte_of (Z.lor tx (Z.land r maskx))].

(** [string(i)] for [i int]. *)
Definition string_of_int (i : Z) : string :=
  string_of_list_ascii
    (encoderune (if valid_rune i then i else runeError)).

(** ** The number source: [uniq] *)

(** [var uniq = make(chan int)] is served by the goroutine of [init],
    [for i := 0; ; i++ { uniq <- i }].  Its state is the value of [i]
    that the next receive obtains. *)
Definition uniq_init : Z := 0.

(** [<-uniq]: the value received and the next state of the goroutine. *)
Definition uniq_recv (i : Z) : Z * Z := (i, int_incr i).

(** The values obtained by [k] successive receives. *)
Fixpoint uniq_take (k : nat) (i : Z) : list Z :=
  match k with
  | O => []
  | S k' => let (v, i') := uniq_recv i in v :: uniq_take k' i'
  end.

(** ** Processes *)

(** The part of [exec.Cmd] that [cmd] fills in. *)
Record Cmd : Type := mkCmd {
  Path : string;
  Args : list string;
  Dir : string;
  Stdout : messageWriter;
  Stderr : messageWriter
}.

(** [type Process struct { id string; out chan<- *Message;
    Done chan struct{}; run *exec.Cmd }].  [out] is the history of the
    output channel; [Done] tells whether the channel [Done] has been
    closed; [run] is [None] for a nil pointer. *)
Record Process : Type := mkProcess {
  id : string;
  out : chan;
  Done : bool;
  run : option Cmd
}.

Definition set_out (p : Process) (h : chan) : Process :=
  mkProcess (id p) h (Done p) (run p).

Definition set_Done (p : Process) (d : bool) : Process :=
  mkProcess (id p) (out p) d (run p).

Definition set_run (p : Process) (c : option Cmd) : Process :=
  mkProcess (id p) (out p) (Done p) c.

(** What the supervisor has asked of the operating system. *)
Record World : Type := mkWorld {
  uniq : Z;                   (* state of the [uniq] goroutine *)
  start_calls : list Cmd;     (* every [cmd.Start()] made, newest first *)
  children : list Cmd         (* the commands that were started *)
}.

(** [func (p *Process) cmd(dir *string, args ...string) *exec.Cmd];
    [args] is not empty: [name] is [args[0]] and [arg] is [args[1:]].
    [exec.Command(name, arg...)] gives the path and the argument vector
    and leaves the directory empty. *)
Definition cmd (p : Process) (dir : option string)
  (name : string) (arg : list string) : Cmd :=
  mkCmd name (name :: arg)
    (match dir with Some d => d | None => "" end)
    (mkWriter (id p) "stdout") (mkWriter (id p) "stderr").

(** [func (p *Process) start(dir *string, args []string) error].
    [os_start c] is the answer of the operating system to
    [c.Start()]: [None] when the child runs, the error otherwise. *)
Definition start (os_start : Cmd -> option error) (p : Process)
  (dir : option string) (args : list string) (w : World)
  : World * Process * option error :=
  match args with
  | [] => (w, p, Some (errors_New "No arguments found"))
  | name :: arg =>
      let c := cmd p dir name arg in
      match os_start c with
      | Some err =>
          (mkWorld (uniq w) (c :: start_calls w) (children w), p, Some err)
      | None =>
          (mkWorld (uniq w) (c :: start_calls w) (c :: children w),
           set_run p (Some c), None)
      end
  end.

(** [func (p *Process) end(err error)] *)
Definition end_ (p : Process) (err : option error) : Process :=
  let body := match err with Some e => Error e | None => "" end in
  set_out p (out p ++ [Send (mkMessage (id p) "end" body)]).

(** [func StartProcess(dir *string, args []string, out chan<- *Message)
    *Process]: the world and the output channel afterwards, and the
    pointer returned ([None] for nil).  When a process is returned the
    goroutine [p.wait()] has been started; it is run by [step] below. *)
Definition StartProcess (os_start : Cmd -> option error)
  (dir : option string) (args : list string) (out0 : chan) (w : World)
  : World * chan * option Process :=
  let (i, u) := uniq_recv (uniq w) in
  let p := mkProcess (string_of_int i) out0 false None in
  match start os_start p dir args (mkWorld u (start_calls w) (children w)) with
  | (w', p', Some err) =>
      let p'' := end_ p' (Some err) in
      (w', out p'' ++ [Close], None)
  | (w', p', None) =>
      (w', out p', Some p')
  end.

(** ** The life of a started process *)

(** The child as the supervisor sees it through [exec.Cmd]: running, or
    finished with all its output copied, in which case [Wait] returns
    the recorded status. *)
Inductive os_process : Type :=
| Running
| Finished (status : option error).

(** The goroutine [p.wait()]: [p.end(p.run.Wait()); close(p.Done)]. *)
Inductive wait_pc : Type :=
| WaitCmd                        (* in [p.run.Wait()] *)
| WaitEnd (err : option error)   (* about to call [p.end(err)] *)
| WaitClose                      (* about to [close(p.Done)] *)
| WaitDone.                      (* returned *)

(** A call of [p.Kill()] on a non-nil [p]. *)
Inductive kill_pc : Type :=
| KillSignal      (* about to call [p.run.Process.Kill()] *)
| KillRecv        (* in [<-p.Done] *)
| KillReturned.

Inductive std_stream : Type := ToStdout | ToStderr.

Record System : Type := mkSystem {
  proc : Process;
  child : os_process;
  signals : nat;               (* kill signals delivered to the running child *)
  wait_task : wait_pc;
  kill_calls : list kill_pc    (* the calls of [Kill] made so far *)
}.

(** The system when [StartProcess] returns [p]. *)
Definition init_system (p : Process) : System :=
  mkSystem p Running 0 WaitCmd [].

Inductive label : Type :=
| ChildWrites (st : std_stream) (b : list ascii) (* output reaches a writer *)
| ChildExits (status : option error)       (* exit, and the output is copied *)
| WaitStep                                 (* next statement of [p.wait()] *)
| KillCall (h : option Process)            (* somebody calls [h.Kill()] *)
| KillStep (k : nat).                      (* next statement of call [k] *)

Fixpoint set_nth {A : Type} (k : nat) (a : A) (l : list A) : list A :=
  match l, k with
  | [], _ => []
  | _ :: l', O => a :: l'
  | x :: l', S k' => x :: set_nth k' a l'
  end.

(** The statements of [p.wait()], one at a time. *)
Definition wait_step (s : System) : option System :=
  match wait_task s with
  | WaitCmd =>
      match child s with
      | Finished status =>
          Some (mkSystem (proc s) (child s) (signals s) (WaitEnd status)
                  (kill_calls s))
      | Running => None
      end
  | WaitEnd err =>
      Some (mkSystem (end_ (proc s) err) (child s) (signals s) WaitClose
              (kill_calls s))
  | WaitClose =>
      Some (mkSystem (set_Done (proc s) true) (child s) (signals s) WaitDone
              (kill_calls s))
  | WaitDone => None
  end.

(** Entry of [func (p *Process) Kill()]: a nil [p] returns at once. *)
Definition Kill (h : option Process) (s : System) : System :=
  match h with
  | None => s
  | Some _ =>
      mkSystem (proc s) (child s) (signals s) (wait_task s)
        (kill_calls s ++ [KillSignal])
  end.

(** The statements of [Kill] after the nil test, one at a time. *)
Definition kill_step (k : nat) (s : System) : option System :=
  match nth_error (kill_calls s) k with
  | Some KillSignal =>
      let delivered :=
        match child s with
        | Running => S (signals s)
        | Finished _ => signals s
        end in
      Some (mkSystem (proc s) (child s) delivered (wait_task s)
              (set_nth k KillRecv (kill_calls s)))
  | Some KillRecv =>
      if Done (proc s) then
        Some (mkSystem (proc s) (child s) (signals s) (wait_task s)
                (set_nth k KillReturned (kill_calls s)))
      else None
  | Some KillReturned => None
  | None => None
  end.

(** One step of the system; [None] when the step is not possible (the
    goroutine is blocked or has returned, the child has gone). *)
Definition step (l : label) (s : System) : option System :=
  match l with
  | ChildWrites st b =>
      match child s, run (proc s) with
      | Running, Some c =>
          let w := match st with ToStdout => Stdout c | ToStderr => Stderr c end in
          let (h, _) := Write w b (out (proc s)) in
          Some (mkSystem (set_out (proc s) h) (child s) (signals s)
                  (wait_task s) (kill_calls s))
      | _, _ => None
      end
  | ChildExits status =>
      match child s with
      | Running =>
          Some (mkSystem (proc s) (Finished status) (signals s)
                  (wait_task s) (kill_calls s))
      | Finished _ => None
      end
  | WaitStep => wait_step s
  | KillCall h => Some (Kill h s)
  | KillStep k => kill_step k s
  end.

Fixpoint steps (ls : list label) (s : System) : option System :=
  match ls with
  | [] => Some s
  | l :: ls' =>
      match step l s with
      | Some s' => steps ls' s'
      | None => None
      end
  end.

(** ** Vocabulary of the statements about process ids *)

(** The value of a byte. *)
Definition byte_val (c : ascii) : Z := Z.of_N (N_of_ascii c).

(** A continuation byte of UTF-8: [10xxxxxx]. *)
Definition is_cont (b : Z) : bool := (0x80 <=? b) && (b <=? 0xBF).

(** The code point of a string that consists of one UTF-8 sequence:
    [0xxxxxxx], [110xxxxx 10xxxxxx], [1110xxxx 10xxxxxx 10xxxxxx] or
    [11110xxx 10xxxxxx 10xxxxxx 10xxxxxx]. *)
Definition rune_of_string (s : string) : option Z :=
  match map byte_val (list_ascii_of_string s) with
  | [b0] =>
      if b0 <=? 0x7F then Some b0 else None
  | [b0; b1] =>
      if (0xC0 <=? b0) && (b0 <=? 0xDF) && is_cont b1
      then Some ((b0 - 0xC0) * 64 + (b1 - 0x80))
      else None
  | [b0; b1; b2] =>
      if (0xE0 <=? b0) && (b0 <=? 0xEF) && is_cont b1 && is_cont b2
      then Some ((b0 - 0xE0) * 4096 + (b1 - 0x80) * 64 + (b2 - 0x80))
      else None
  | [b0; b1; b2; b3] =>
      if (0xF0 <=? b0) && (b0 <=? 0xF7) && is_cont b1 && is_cont b2
         && is_cont b3
      then Some ((b0 - 0xF0) * 262144 + (b1 - 0x80) * 4096
                 + (b2 - 0x80) * 64 + (b3 - 0x80))
      else None
  | _ => None
  end.

(** The decimal numeral of a natural number below ten, as
    [strconv.Itoa] would print it. *)
Definition decimal_digit (k : nat) : string :=
  String (ascii_of_nat (48 + k)) EmptyString.

(** The world after [k] calls of [StartProcess], each with an output
    channel of its own. *)
Fixpoint after_starts (k : nat) (os_start : Cmd -> option error)
  (dir : option string) (args : list string) (w : World) : World :=
  match k with
  | O => w
  | S k' =>
      after_starts k' os_start dir args
        (fst (fst (StartProcess os_start dir args [] w)))
  end.

(** The string of the three bytes [EF BF BD], the encoding of
    [runeError]. *)
Definition replacement_string : string :=
  string_of_list_ascii [byte_of 0xEF; byte_of 0xBF; byte_of 0xBD].

(** ** Vocabulary of the statements about the life of a process *)

(** The messages sent on a channel, in order. *)
Definition messages (h : chan) : list Message :=
  flat_map (fun op => match op with Send m => [m] | Close => [] end) h.

(** The [end] messages among them. *)
Definition end_messages (h : chan) : list Message :=
  filter is_end (messages h).

(** The process that [StartProcess] builds before it calls [start]. *)
Definition new_process (w : World) (out0 : chan) : Process :=
  mkProcess (string_of_int (uniq w)) out0 false None.

(** The [end] message of process [i] with the text of [err]. *)
Definition end_message (i : string) (err : option error) : Message :=
  mkMessage i "end" (match err with Some e => Error e | None => "" end).

(** A message written by one of the two relays of process [i]. *)
Definition is_output_of (i : string) (m : Message) : Prop :=
  Id m = i /\ (Kind m = "stdout" \/ Kind m = "stderr").

(** [p.wait()] has sent the [end] message. *)
Definition ended (s : System) : bool :=
  match wait_task s with
  | WaitClose | WaitDone => true
  | WaitCmd | WaitEnd _ => false
  end.

(** The labels of the goroutines that run [p.wait()] and call [k] of
    [Kill]. *)
Definition of_wait_or_kill (k : nat) (l : label) : Prop :=
  l = WaitStep \/ l = KillStep k.

(** What holds of the system of process [i], started on a channel with
    history [out0], at every moment of its life. *)
Definition lifecycle_inv (out0 : chan) (i : string) (s : System) : Prop :=
  id (proc s) = i /\
  (exists c : Cmd,
     run (proc s) = Some c /\
     Stdout c = mkWriter i "stdout" /\ Stderr c = mkWriter i "stderr") /\
  (exists pre : list Message,
     Forall (is_output_of i) pre /\
     match wait_task s with
     | WaitCmd =>
         out (proc s) = out0 ++ map Send pre /\ Done (proc s) = false
     | WaitEnd err =>
         out (proc s) = out0 ++ map Send pre /\ Done (proc s) = false /\
         child s = Finished err
     | WaitClose =>
         exists err : option error,
           out (proc s) = out0 ++ map Send (pre ++ [end_message i err]) /\
           Done (proc s) = false /\ child s = Finished err
     | WaitDone =>
         exists err : option error,
           out (proc s) = out0 ++ map Send (pre ++ [end_message i err]) /\
           Done (proc s) = true /\ child s = Finished err
     end) /\
  Forall (fun k => k = KillReturned -> Done (proc s) = true) (kill_calls s).

(** ** Vocabulary of the statements about the limiter *)

(** The limit as a position in a list of messages. *)
Definition limit : nat := Z.to_nat msgLimit.

(** The request the limiter builds for a message over the limit:
    [&Message{Id: m.Id, Kind: "kill"}]. *)
Definition kill_request (m : Message) : Message :=
  mkMessage (Id m) "kill" "".

(** The non-terminal messages that the limiter receives before the
    first [end] message or the close of its input. *)
Fixpoint leading (ch : list input) : list Message :=
  match ch with
  | Recv m :: ch' => if is_end m then [] else m :: leading ch'
  | _ => []
  end.

(** What follows them in the input. *)
Fixpoint after_leading (ch : list input) : list input :=
  match ch with
  | Recv m :: ch' => if is_end m then ch else after_leading ch'
  | _ => ch
  end.

(** The [end] message that stops the limiter, if the input has one
    before it is closed. *)
Definition stopping_end (ch : list input) : list Message :=
  match after_leading ch with
  | Recv e :: _ => [e]
  | _ => []
  end.

(** ** Vocabulary of the statements about the output of a process *)

(** The kind that the relay of a stream gives to its messages. *)
Definition stream_kind (st : std_stream) : string :=
  match st with ToStdout => "stdout" | ToStderr => "stderr" end.

(** The message that relays the chunk [b] written to stream [st] by
    the child of process [i]. *)
Definition relay_message (i : string) (st : std_stream) (b : list ascii)
  : Message :=
  mkMessage i (stream_kind st) (string_of_bytes b).

(** The chunks written by the child along a run, relayed, in order. *)
Fixpoint writes_of (i : string) (ls : list label) : list Message :=
  match ls with
  | [] => []
  | ChildWrites st b :: ls' => relay_message i st b :: writes_of i ls'
  | _ :: ls' => writes_of i ls'
  end.

(** The [end] message once [p.wait()] has sent it: it carries the exit
    status of the child. *)
Definition end_part (i : string) (s : System) : list Message :=
  match wait_task s, child s with
  | WaitClose, Finished status => [end_message i status]
  | WaitDone, Finished status => [end_message i status]
  | _, _ => []
  end.

(** The labels of a child that writes the chunks [ws] one after the
    other. *)
Definition write_labels (ws : list (std_stream * list ascii)) : list label :=
  map (fun w => ChildWrites (fst w) (snd w)) ws.

(** The label belongs to a call of [Kill]. *)
Definition is_kill_label (l : label) : bool :=
  match l with
  | KillCall _ | KillStep _ => true
  | ChildWrites _ _ | ChildExits _ | WaitStep => false
  end.

(** What has been sent on the output channel since it had the history
    [out0]. *)
Definition emitted (out0 : chan) (s : System) : list Message :=
  messages (skipn (List.length out0) (out (proc s))).

(** The history of the output channel along a run: the invariant of the
    life of the process, with the messages named. *)
Definition output_inv (out0 : chan) (i : string) (ls : list label)
  (s : System) : Prop :=
  lifecycle_inv out0 i s /\
  out (proc s) = out0 ++ map Send (writes_of i ls ++ end_part i s) /\
  (forall status, In (ChildExits status) ls -> child s = Finished status).


(** Calls of [StartProcess] made one after the other, each with its
    directory, its arguments and an output channel of its own: the
    pointers returned. *)
Fixpoint start_each (os_start : Cmd -> option error)
  (calls : list (option string * list string)) (w : World)
  : list (option Process) :=
  match calls with
  | [] => []
  | (dir, args) :: calls' =>
      let r := StartProcess os_start dir args [] w in
      snd r :: start_each os_start calls' (fst (fst r))
  end.

(** The ids of the processes among the pointers. *)
Definition handle_ids (hs : list (option Process)) : list string :=
  flat_map (fun h => match h with Some p => [id p] | None => [] end) hs.

(** The world after the calls of [start_each]. *)
Fixpoint world_after_each (os_start : Cmd -> option error)
  (calls : list (option string * list string)) (w : World) : World :=
  match calls with
  | [] => w
  | (dir, args) :: calls' =>
      world_after_each os_start calls'
        (fst (fst (StartProcess os_start dir args [] w)))
  end.

(** The commands held by the processes among the pointers. *)
Definition handle_cmds (hs : list (option Process)) : list Cmd :=
  flat_map (fun h => match h with
                     | Some p => match run p with Some c => [c] | None => [] end
                     | None => []
                     end) hs.

(** The number of statements that [p.wait()] has executed. *)
Definition wait_pc_index (pc : wait_pc) : nat :=
  match pc with
  | WaitCmd => 0
  | WaitEnd _ => 1
  | WaitClose => 2
  | WaitDone => 3
  end.

(** The number of steps of [p.wait()] in a run. *)
Fixpoint wait_steps (ls : list label) : nat :=
  match ls with
  | [] => 0
  | WaitStep :: ls' => S (wait_steps ls')
  | _ :: ls' => wait_steps ls'
  end.

(* ================================================================== *)
(** * Part II: properties                                              *)
(* ================================================================== *)

(** ** Arithmetic of [int] *)

Lemma int_wrap_small (z : Z) : min_int <= z <= max_int -> int_wrap z = z.
Proof.
  unfold int_wrap, min_int, max_int, int_bits. simpl Z.sub. intros Hz.
  rewrite Z.mod_small; lia.
Qed.

Lemma int_incr_small (n : Z) : min_int <= n < max_int -> int_incr n = n + 1.
Proof. intros Hn. unfold int_incr. apply int_wrap_small. lia. Qed.

Lemma int_incr_max : int_incr max_int = min_int.
Proof. reflexivity. Qed.

Lemma msgLimit_bounds : min_int <= 0 /\ 0 <= msgLimit < max_int.
Proof. unfold min_int, max_int, msgLimit, int_bits. simpl. lia. Qed.

Lemma len_nonneg {A : Type} (l : list A) : 0 <= len l.
Proof. unfold len. lia. Qed.

Lemma len_cons {A : Type} (a : A) (l : list A) : len (a :: l) = len l + 1.
Proof. unfold len. simpl List.length. lia. Qed.

Lemma len_app {A : Type} (l l' : list A) : len (l ++ l') = len l + len l'.
Proof. unfold len. rewrite length_app. lia. Qed.

(** ** The limiter, one message at a time *)

Lemma is_end_non_terminal (m : Message) :
  non_terminal m = true -> is_end m = false.
Proof. unfold non_terminal. now destruct (is_end m). Qed.

(** Below the limit a non-terminal message is passed on. *)
Lemma limiter_body_forward (n : Z) (m : Message) :
  n < msgLimit -> is_end m = false ->
  limiter_body n m = ([ToDest m], int_incr n, Next).
Proof.
  intros Hn Hm. unfold limiter_body, limiter_switch.
  apply Z.ltb_lt in Hn. now rewrite Hn, Hm.
Qed.

(** At the limit a non-terminal message is turned into a kill request. *)
Lemma limiter_body_kill (m : Message) :
  is_end m = false ->
  limiter_body msgLimit m =
  ([ToKill (mkMessage (Id m) "kill" "")], int_incr msgLimit, Next).
Proof.
  intros Hm. unfold limiter_body, limiter_switch.
  now rewrite Z.ltb_irrefl, Hm, Z.eqb_refl.
Qed.

(** Above the limit a non-terminal message is dropped. *)
Lemma limiter_body_drop (n : Z) (m : Message) :
  msgLimit < n -> is_end m = false ->
  limiter_body n m = ([], int_incr n, Next).
Proof.
  intros Hn Hm. unfold limiter_body, limiter_switch.
  assert (H1 : (n <? msgLimit) = false) by (apply Z.ltb_ge; lia).
  assert (H2 : (n =? msgLimit) = false) by (apply Z.eqb_neq; lia).
  now rewrite H1, Hm, H2.
Qed.

(** An [end] message is passed on whatever the counter, and the
    goroutine returns before [n++]. *)
Lemma limiter_body_end (n : Z) (m : Message) :
  is_end m = true -> limiter_body n m = ([ToDest m], n, Return).
Proof.
  intros Hm. unfold limiter_body, limiter_switch.
  now rewrite Hm, orb_true_r.
Qed.

(** ** The limiter on runs of non-terminal messages *)

Lemma limiter_loop_forward (ms : list Message) :
  forall (n : Z) (rest : list input),
  forallb non_terminal ms = true ->
  min_int <= n -> n + len ms <= msgLimit ->
  limiter_loop n (map Recv ms ++ rest) =
  (map ToDest ms ++ fst (limiter_loop (n + len ms) rest),
   snd (limiter_loop (n + len ms) rest)).
Proof.
  induction ms as [|m ms IH]; intros n rest Hnt Hlo Hhi.
  - simpl. unfold len; simpl. rewrite Z.add_0_r.
    now destruct (limiter_loop n rest).
  - simpl in Hnt. apply andb_true_iff in Hnt as [Hm Hms].
    rewrite len_cons in Hhi. pose proof (len_nonneg ms) as Hl.
    pose proof msgLimit_bounds as Hb.
    simpl. rewrite limiter_body_forward
      by (try lia; now apply is_end_non_terminal).
    rewrite int_incr_small by lia.
    rewrite IH by (try assumption; lia).
    rewrite len_cons. now replace (n + 1 + len ms) with (n + (len ms + 1)) by lia.
Qed.

Lemma limiter_loop_drop (ms : list Message) :
  forall (n : Z) (rest : list input),
  forallb non_terminal ms = true ->
  msgLimit < n -> n + len ms <= max_int ->
  limiter_loop n (map Recv ms ++ rest) = limiter_loop (n + len ms) rest.
Proof.
  induction ms as [|m ms IH]; intros n rest Hnt Hlo Hhi.
  - simpl. unfold len; simpl. now rewrite Z.add_0_r.
  - simpl in Hnt. apply andb_true_iff in Hnt as [Hm Hms].
    rewrite len_cons in Hhi. pose proof (len_nonneg ms) as Hl.
    pose proof msgLimit_bounds as Hb.
    simpl. rewrite limiter_body_drop
      by (try lia; now apply is_end_non_terminal).
    rewrite int_incr_small by lia.
    rewrite IH by (try assumption; lia).
    rewrite len_cons.
    replace (n + (len ms + 1)) with (n + 1 + len ms) by lia.
    now destruct (limiter_loop (n + 1 + len ms) rest).
Qed.

Lemma limiter_loop_end (n : Z) (e : Message) (rest : list input) :
  is_end e = true ->
  limiter_loop n (Recv e :: rest) = ([ToDest e], Exited n).
Proof. intros He. simpl. now rewrite limiter_body_end. Qed.

Lemma limiter_loop_nil (n : Z) : limiter_loop n [] = ([], Blocked n).
Proof. reflexivity. Qed.

(** ** The limiter past its limit *)

Lemma split_nth {A : Type} (n : nat) :
  forall (l : list A) (d : A),
  (n < List.length l)%nat ->
  l = firstn n l ++ nth n l d :: skipn (S n) l.
Proof.
  induction n as [|n IH]; intros [|a l] d Hn; simpl in *; try lia.
  - reflexivity.
  - f_equal. apply IH. lia.
Qed.

Lemma limiter_loop_over (a b : list Message) (x : Message) (rest : list input) :
  forallb non_terminal a = true ->
  non_terminal x = true ->
  forallb non_terminal b = true ->
  len a = msgLimit ->
  msgLimit + 1 + len b <= max_int ->
  limiter_loop 0 (map Recv (a ++ x :: b) ++ rest) =
  (map ToDest a ++
     ToKill (kill_request x) :: fst (limiter_loop (msgLimit + 1 + len b) rest),
   snd (limiter_loop (msgLimit + 1 + len b) rest)).
Proof.
  intros Ha Hx Hb Hla Hmax.
  pose proof msgLimit_bounds as Hbd. pose proof (len_nonneg b) as Hlb.
  rewrite map_app, <- app_assoc.
  rewrite limiter_loop_forward by (try assumption; lia).
  rewrite Z.add_0_l, Hla.
  change (map Recv (x :: b) ++ rest) with (Recv x :: (map Recv b ++ rest)).
  cbn [limiter_loop]. rewrite limiter_body_kill by now apply is_end_non_terminal.
  rewrite int_incr_small by lia.
  rewrite limiter_loop_drop by (try assumption; lia).
  destruct (limiter_loop (msgLimit + 1 + len b) rest) as [acts o].
  reflexivity.
Qed.

Lemma forallb_firstn {A : Type} (f : A -> bool) (n : nat) (l : list A) :
  forallb f l = true -> forallb f (firstn n l) = true.
Proof.
  intros H. rewrite <- (firstn_skipn n l) in H.
  rewrite forallb_app in H. now apply andb_true_iff in H.
Qed.

Lemma forallb_skipn {A : Type} (f : A -> bool) (n : nat) (l : list A) :
  forallb f l = true -> forallb f (skipn n l) = true.
Proof.
  intros H. rewrite <- (firstn_skipn n l) in H.
  rewrite forallb_app in H. now apply andb_true_iff in H.
Qed.

Lemma forallb_nth {A : Type} (f : A -> bool) (n : nat) (l : list A) (d : A) :
  forallb f l = true -> (n < List.length l)%nat -> f (nth n l d) = true.
Proof.
  intros H Hn. rewrite forallb_forall in H. apply H. now apply nth_In.
Qed.

(** More than [msgLimit] non-terminal messages: the first [msgLimit] are
    passed on, the next one is answered by a kill request, the others
    are dropped, and the counter has counted them all. *)
Lemma limiter_over_limit (ms : list Message) (d : Message) (rest : list input) :
  forallb non_terminal ms = true ->
  msgLimit < len ms <= max_int ->
  limiter (map Recv ms ++ rest) =
  (map ToDest (firstn limit ms) ++
     ToKill (kill_request (nth limit ms d)) :: fst (limiter_loop (len ms) rest),
   snd (limiter_loop (len ms) rest)).
Proof.
  intros Hnt [Hlo Hhi].
  assert (Hlen : (limit < List.length ms)%nat).
  { unfold limit, len in *. pose proof msgLimit_bounds. lia. }
  pose proof (split_nth limit ms d Hlen) as Hs.
  assert (Hla : len (firstn limit ms) = msgLimit).
  { unfold len. rewrite length_firstn. unfold limit in *.
    pose proof msgLimit_bounds. lia. }
  assert (Hl : len ms = msgLimit + 1 + len (skipn (S limit) ms)).
  { rewrite Hs at 1. rewrite len_app, len_cons. lia. }
  unfold limiter. rewrite Hs at 1. rewrite Hl.
  apply limiter_loop_over; try assumption.
  - now apply forallb_firstn.
  - now apply forallb_nth.
  - now apply forallb_skipn.
  - lia.
Qed.

Lemma to_dest_app (a b : list action) : to_dest (a ++ b) = to_dest a ++ to_dest b.
Proof. apply flat_map_app. Qed.

Lemma to_kill_app (a b : list action) : to_kill (a ++ b) = to_kill a ++ to_kill b.
Proof. apply flat_map_app. Qed.

Lemma to_dest_map (ms : list Message) : to_dest (map ToDest ms) = ms.
Proof. induction ms as [|m ms IH]; simpl; congruence. Qed.

Lemma to_kill_map (ms : list Message) : to_kill (map ToDest ms) = [].
Proof. induction ms as [|m ms IH]; simpl; congruence. Qed.

Lemma filter_all {A : Type} (f : A -> bool) (l : list A) :
  forallb f l = true -> filter f l = l.
Proof.
  induction l as [|a l IH]; simpl; intros H; [reflexivity|].
  apply andb_true_iff in H as [Ha Hl]. rewrite Ha. f_equal. now apply IH.
Qed.

(** C2: more than [msgLimit] non-terminal messages followed by an [end]
    message.  The destination receives the first [msgLimit] of them and
    no other non-terminal message; one [kill] message with the id of
    message number [msgLimit + 1] goes to the kill channel, it is sent
    when that message is received and not before; every longer prefix of
    the input produces nothing more, so the later messages are dropped
    without a further kill request; the [end] message is passed on.
    The input is shorter than the range of the counter ([max_int]). *)
Theorem limiter_overflow_kills_once
  (pre : list Message) (e : Message) (rest : list input) :
  forallb non_terminal pre = true ->
  is_end e = true ->
  msgLimit < len pre ->
  len pre <= max_int ->
  let kept := firstn limit pre in
  let over := nth limit pre e in
  let acts := fst (limiter (map Recv pre ++ Recv e :: rest)) in
  acts = map ToDest kept ++ [ToKill (kill_request over); ToDest e] /\
  to_dest acts = kept ++ [e] /\
  filter non_terminal (to_dest acts) = kept /\
  len (filter non_terminal (to_dest acts)) <= msgLimit /\
  to_kill acts = [kill_request over] /\
  Id (kill_request over) = Id over /\
  Kind (kill_request over) = "kill" /\
  fst (limiter (map Recv kept)) = map ToDest kept /\
  fst (limiter (map Recv (kept ++ [over]))) =
    map ToDest kept ++ [ToKill (kill_request over)] /\
  (forall k : nat, (limit < k)%nat ->
     fst (limiter (map Recv (firstn k pre))) =
       map ToDest kept ++ [ToKill (kill_request over)]) /\
  In (ToDest e) acts /\
  snd (limiter (map Recv pre ++ Recv e :: rest)) = Exited (len pre).
Proof.
  intros Hnt He Hlo Hhi kept over acts.
  pose proof msgLimit_bounds as Hbd.
  assert (Hlen : (limit < List.length pre)%nat)
    by (unfold limit, len in *; lia).
  assert (Hkept : forallb non_terminal kept = true)
    by now apply forallb_firstn.
  assert (Hover : non_terminal over = true)
    by now apply forallb_nth.
  assert (Hlk : len kept = msgLimit).
  { unfold kept, len. rewrite length_firstn. unfold limit in *. lia. }
  assert (Hacts : acts = map ToDest kept ++ [ToKill (kill_request over); ToDest e]).
  { unfold acts. rewrite (limiter_over_limit pre e) by (try assumption; lia).
    now rewrite limiter_loop_end. }
  assert (Hdest : to_dest acts = kept ++ [e]).
  { rewrite Hacts, to_dest_app, to_dest_map. reflexivity. }
  assert (Hfil : filter non_terminal (to_dest acts) = kept).
  { rewrite Hdest, filter_app, filter_all by assumption. simpl.
    unfold non_terminal at 1. rewrite He. simpl. apply app_nil_r. }
  repeat split.
  - exact Hacts.
  - exact Hdest.
  - exact Hfil.
  - rewrite Hfil, Hlk. apply Z.le_refl.
  - rewrite Hacts, to_kill_app, to_kill_map. reflexivity.
  - rewrite <- (app_nil_r (map Recv kept)). unfold limiter.
    rewrite limiter_loop_forward by (try assumption; lia).
    simpl. apply app_nil_r.
  - rewrite <- (app_nil_r (map Recv (kept ++ [over]))). unfold limiter.
    rewrite limiter_loop_over; try assumption; try reflexivity.
    change (len (@nil Message)) with 0. lia.
  - intros k Hk.
    rewrite <- (app_nil_r (map Recv (firstn k pre))).
    assert (Hlf : len (firstn k pre) = Z.of_nat (Nat.min k (List.length pre))).
    { unfold len. now rewrite length_firstn. }
    rewrite (limiter_over_limit (firstn k pre) e).
    + cbn [fst limiter_loop]. rewrite firstn_firstn, Nat.min_l by lia.
      rewrite nth_firstn.
      assert (Hb : (limit <? k)%nat = true) by (apply Nat.ltb_lt; lia).
      now rewrite Hb.
    + now apply forallb_firstn.
    + rewrite Hlf. unfold limit, len in *. lia.
  - rewrite Hacts. apply in_or_app. right. simpl. auto.
  - rewrite (limiter_over_limit pre e) by (try assumption; lia).
    now rewrite limiter_loop_end.
Qed.

Lemma limiter_overflow_kills_once_witness :
  let pre := repeat (mkMessage "7" "stdout" "line") 1002 in
  let e := mkMessage "7" "end" "" in
  to_dest (fst (limiter (map Recv pre ++ [Recv e]))) = firstn limit pre ++ [e] /\
  to_kill (fst (limiter (map Recv pre ++ [Recv e]))) = [mkMessage "7" "kill" ""].
Proof.
  intros pre e.
  assert (H1 : forallb non_terminal pre = true) by (vm_compute; reflexivity).
  assert (H2 : is_end e = true) by reflexivity.
  assert (H3 : msgLimit < len pre) by (vm_compute; reflexivity).
  assert (H4 : len pre <= max_int) by (vm_compute; discriminate).
  pose proof (limiter_overflow_kills_once pre e [] H1 H2 H3 H4) as H.
  cbv zeta in H.
  destruct H as (_ & Hd & _ & _ & Hk & _).
  split; [exact Hd|]. rewrite Hk. vm_compute. reflexivity.
Defined.

(** ** The counter of the limiter *)

(** C8, as the code has it: after a message that is not [end] the
    counter is incremented ([n++]) whichever case of the switch handled
    it (passed on, kill request, dropped); on an [end] message the
    goroutine returns from inside the switch and the counter keeps its
    value.  Below [max_int] the increment is [n + 1]. *)
Theorem limiter_counter_after_message (n : Z) (m : Message) :
  (is_end m = false -> n < msgLimit ->
     limiter_body n m = ([ToDest m], int_incr n, Next)) /\
  (is_end m = false -> n = msgLimit ->
     limiter_body n m = ([ToKill (kill_request m)], int_incr n, Next)) /\
  (is_end m = false -> msgLimit < n ->
     limiter_body n m = ([], int_incr n, Next)) /\
  (is_end m = true ->
     limiter_body n m = ([ToDest m], n, Return)) /\
  (min_int <= n < max_int -> int_incr n = n + 1).
Proof.
  repeat split.
  - intros Hm Hn. now apply limiter_body_forward.
  - intros Hm Hn. subst n. now apply limiter_body_kill.
  - intros Hm Hn. now apply limiter_body_drop.
  - apply limiter_body_end.
  - apply int_incr_small.
Qed.

Lemma limiter_counter_after_message_witness :
  let m := mkMessage "7" "stdout" "line" in
  limiter_body 3 m = ([ToDest m], 4, Next) /\
  limiter_body 1000 m = ([ToKill (mkMessage "7" "kill" "")], 1001, Next) /\
  limiter_body 1001 m = ([], 1002, Next) /\
  limiter_body 3 (mkMessage "7" "end" "") =
    ([ToDest (mkMessage "7" "end" "")], 3, Return).
Proof.
  intros m.
  destruct (limiter_counter_after_message 3 m) as (H1 & _).
  destruct (limiter_counter_after_message 1000 m) as (_ & H2 & _).
  destruct (limiter_counter_after_message 1001 m) as (_ & _ & H3 & _).
  destruct (limiter_counter_after_message 3 (mkMessage "7" "end" ""))
    as (_ & _ & _ & H4 & _).
  exact (conj (H1 eq_refl eq_refl)
          (conj (H2 eq_refl eq_refl)
             (conj (H3 eq_refl eq_refl) (H4 eq_refl)))).
Defined.

(** C8 as stated fails on an [end] message: the limiter examines it and
    passes it on, and the counter is not incremented afterwards. *)
Lemma limiter_end_leaves_counter :
  let m := mkMessage "7" "end" "" in
  limiter_body 0 m = ([ToDest m], 0, Return) /\
  snd (limiter [Recv m]) = Exited 0 /\
  ~ (forall (n : Z) (m' : Message),
       snd (fst (limiter_body n m')) = int_incr n).
Proof.
  intros m. split; [reflexivity|]. split; [reflexivity|].
  intros H. specialize (H 0 m). vm_compute in H. discriminate H.
Qed.

(** ** The limiter when its input is closed *)

Lemma limiter_body_non_terminal (n : Z) (m : Message) :
  is_end m = false ->
  exists acts : list action,
    limiter_body n m = (acts, int_incr n, Next) /\
    (acts = [ToDest m] \/ acts = [ToKill (kill_request m)] \/ acts = []).
Proof.
  intros Hm. unfold limiter_body, limiter_switch. rewrite Hm, orb_false_r.
  destruct (n <? msgLimit); [eauto|].
  destruct (n =? msgLimit); eauto.
Qed.

(** On non-terminal messages the goroutine stays in its loop, and what
    it does on a longer input starts with what it did so far.  The
    destination gets nothing but messages of the input. *)
Lemma limiter_loop_non_terminal (ms : list Message) :
  forall n : Z,
  forallb non_terminal ms = true ->
  exists (acts : list action) (n' : Z),
    limiter_loop n (map Recv ms) = (acts, Blocked n') /\
    (forall rest : list input,
       limiter_loop n (map Recv ms ++ rest) =
       (acts ++ fst (limiter_loop n' rest), snd (limiter_loop n' rest))) /\
    forallb non_terminal (to_dest acts) = true.
Proof.
  induction ms as [|m ms IH]; intros n Hnt.
  - exists [], n. repeat split. intros rest. simpl.
    now destruct (limiter_loop n rest).
  - simpl in Hnt. apply andb_true_iff in Hnt as [Hm Hms].
    destruct (limiter_body_non_terminal n m (is_end_non_terminal m Hm))
      as (a & Hbody & Ha).
    destruct (IH (int_incr n) Hms) as (acts & n' & Hrun & Happ & Hd).
    exists (a ++ acts), n'. repeat split.
    + simpl. now rewrite Hbody, Hrun.
    + intros rest. simpl. rewrite Hbody, Happ. now rewrite app_assoc.
    + rewrite to_dest_app, forallb_app, Hd, andb_true_r.
      destruct Ha as [-> | [-> | ->]]; simpl; try reflexivity.
      now rewrite Hm.
Qed.

(** C10: the input channel is closed when only non-terminal messages
    have been received.  The goroutine finishes; what it sent is what it
    had sent before the close, whatever is done with the channel
    afterwards: no message is passed on, no kill request is added; and
    no [end] message reaches the destination. *)
Theorem limiter_closed_before_end (ms : list Message) (rest : list input) :
  forallb non_terminal ms = true ->
  let before := limiter (map Recv ms) in
  let after := limiter (map Recv ms ++ Closed :: rest) in
  fst after = fst before /\
  to_dest (fst after) = to_dest (fst before) /\
  to_kill (fst after) = to_kill (fst before) /\
  forallb non_terminal (to_dest (fst after)) = true /\
  exists n : Z, snd before = Blocked n /\ snd after = Exited n.
Proof.
  intros Hnt before after.
  destruct (limiter_loop_non_terminal ms 0 Hnt) as (acts & n & Hrun & Happ & Hd).
  assert (Hb : before = (acts, Blocked n)) by exact Hrun.
  assert (Ha : after = (acts, Exited n)).
  { unfold after, limiter. rewrite Happ. simpl. now rewrite app_nil_r. }
  rewrite Ha, Hb. simpl. repeat split; try assumption.
  exists n. split; reflexivity.
Qed.

Lemma limiter_closed_before_end_witness :
  let ms := [mkMessage "7" "stdout" "a"; mkMessage "7" "stderr" "b"] in
  fst (limiter (map Recv ms ++ [Closed])) = map ToDest ms /\
  snd (limiter (map Recv ms ++ [Closed])) = Exited 2.
Proof.
  intros ms.
  assert (Hnt : forallb non_terminal ms = true) by reflexivity.
  pose proof (limiter_closed_before_end ms [] Hnt) as H. cbv zeta in H.
  destruct H as (H1 & _). split; [rewrite H1|]; reflexivity.
Defined.

(** ** The output relay *)

(** C7: one call of [Write] adds one message to the channel; the message
    has the writer's id and kind, its body is the bytes of [b], whatever
    they are (line breaks included); the call returns [len(b)] and no
    error. *)
Theorem Write_one_message (w : messageWriter) (b : list ascii) (out : chan) :
  exists m : Message,
    Write w b out = (out ++ [Send m], (len b, None)) /\
    Id m = w_id w /\
    Kind m = w_kind w /\
    list_ascii_of_string (Body m) = b /\
    Z.of_nat (String.length (Body m)) = len b.
Proof.
  exists (mkMessage (w_id w) (w_kind w) (string_of_bytes b)).
  repeat split.
  - apply list_ascii_of_string_of_list_ascii.
  - unfold len, string_of_bytes. simpl. f_equal.
    induction b as [|c b IH]; simpl; congruence.
Qed.

(** ** Bytes and UTF-8 *)

Lemma byte_val_byte_of (z : Z) : 0 <= z < 256 -> byte_val (byte_of z) = z.
Proof.
  intros Hz. unfold byte_val, byte_of.
  rewrite Z.mod_small by lia.
  rewrite N_ascii_embedding by lia. lia.
Qed.

(** A tag whose low [k] bits are clear, or-ed with a [k]-bit payload. *)
Lemma lor_tag (t y k : Z) :
  0 <= k -> t mod 2 ^ k = 0 -> 0 <= y < 2 ^ k -> Z.lor t y = t + y.
Proof.
  intros Hk Ht Hy.
  assert (Hland : Z.land t y = 0).
  { apply Z.bits_inj'. intros n Hn. rewrite Z.land_spec, Z.bits_0.
    destruct (Z.lt_ge_cases n k) as [Hlt | Hge].
    - rewrite <- (Z.mod_pow2_bits_low t k n) by lia.
      now rewrite Ht, Z.bits_0.
    - rewrite <- (Z.mod_small y (2 ^ k)) by lia.
      rewrite Z.mod_pow2_bits_high by lia. apply andb_false_r. }
  rewrite <- Z.lxor_lor by assumption.
  symmetry. now apply Z.add_nocarry_lxor.
Qed.

Lemma land_maskx (z : Z) : Z.land z maskx = z mod 64.
Proof. change maskx with (Z.ones 6). now rewrite Z.land_ones by lia. Qed.

Lemma cont_byte (z : Z) :
  byte_val (byte_of (Z.lor tx (Z.land z maskx))) = 0x80 + z mod 64.
Proof.
  rewrite land_maskx.
  pose proof (Z.mod_pos_bound z 64 ltac:(lia)) as Hm.
  rewrite (lor_tag tx (z mod 64) 6) by (try reflexivity; simpl; lia).
  unfold tx. apply byte_val_byte_of. lia.
Qed.

Lemma lead_byte (t y k : Z) :
  0 <= k -> t mod 2 ^ k = 0 -> 0 <= y < 2 ^ k -> 0 <= t -> t + 2 ^ k <= 256 ->
  byte_val (byte_of (Z.lor t y)) = t + y.
Proof.
  intros Hk Ht Hy Ht0 Hb. rewrite (lor_tag t y k) by assumption.
  apply byte_val_byte_of. lia.
Qed.

Lemma rune_of_string_bytes (bs : list ascii) :
  rune_of_string (string_of_list_ascii bs) =
  match map byte_val bs with
  | [b0] =>
      if b0 <=? 0x7F then Some b0 else None
  | [b0; b1] =>
      if (0xC0 <=? b0) && (b0 <=? 0xDF) && is_cont b1
      then Some ((b0 - 0xC0) * 64 + (b1 - 0x80))
      else None
  | [b0; b1; b2] =>
      if (0xE0 <=? b0) && (b0 <=? 0xEF) && is_cont b1 && is_cont b2
      then Some ((b0 - 0xE0) * 4096 + (b1 - 0x80) * 64 + (b2 - 0x80))
      else None
  | [b0; b1; b2; b3] =>
      if (0xF0 <=? b0) && (b0 <=? 0xF7) && is_cont b1 && is_cont b2
         && is_cont b3
      then Some ((b0 - 0xF0) * 262144 + (b1 - 0x80) * 4096
                 + (b2 - 0x80) * 64 + (b3 - 0x80))
      else None
  | _ => None
  end.
Proof.
  unfold rune_of_string. now rewrite list_ascii_of_string_of_list_ascii.
Qed.

Lemma is_cont_tag (y : Z) : 0 <= y < 64 -> is_cont (0x80 + y) = true.
Proof.
  intros Hy. unfold is_cont. apply andb_true_iff. split; apply Z.leb_le; lia.
Qed.

(** Decoding the encoding of a valid code point gives it back. *)
Lemma rune_of_encoderune (r : Z) :
  valid_rune r = true ->
  rune_of_string (string_of_list_ascii (encoderune r)) = Some r.
Proof.
  unfold valid_rune, maxRune. intros Hv.
  apply andb_true_iff in Hv as [Hv _].
  apply andb_true_iff in Hv as [H0 Hmax].
  apply Z.leb_le in H0. apply Z.leb_le in Hmax.
  rewrite rune_of_string_bytes. unfold encoderune.
  destruct (Z.leb_spec r rune1Max) as [H1 | H1]; unfold rune1Max in H1.
  { cbn [map]. rewrite byte_val_byte_of by lia.
    apply Z.leb_le in H1. now rewrite H1. }
  destruct (Z.leb_spec r rune2Max) as [H2 | H2]; unfold rune2Max in H2.
  { cbn [map]. rewrite cont_byte, Z.shiftr_div_pow2 by lia.
    change (2 ^ 6) with 64.
    assert (Hq : 0 <= r / 64 < 2 ^ 6) by (simpl; Z.div_mod_to_equations; lia).
    pose proof (Z.mod_pos_bound r 64 ltac:(lia)) as Hm.
    rewrite (lead_byte t2 (r / 64) 6) by first [reflexivity | assumption | unfold t2, t3, t4; simpl; lia].
    unfold t2. rewrite is_cont_tag by lia.
    assert (Hl : (192 <=? 192 + r / 64) && (192 + r / 64 <=? 223) = true).
    { apply andb_true_iff.
      split; apply Z.leb_le; Z.div_mod_to_equations; lia. }
    rewrite Hl. cbn [andb]. f_equal. Z.div_mod_to_equations. lia. }
  destruct (Z.leb_spec r rune3Max) as [H3 | H3]; unfold rune3Max in H3.
  { cbn [map]. rewrite !cont_byte, !Z.shiftr_div_pow2 by lia.
    change (2 ^ 6) with 64. change (2 ^ 12) with 4096.
    assert (Hq : 0 <= r / 4096 < 2 ^ 4) by (simpl; Z.div_mod_to_equations; lia).
    pose proof (Z.mod_pos_bound r 64 ltac:(lia)) as Hm.
    pose proof (Z.mod_pos_bound (r / 64) 64 ltac:(lia)) as Hm1.
    rewrite (lead_byte t3 (r / 4096) 4) by first [reflexivity | assumption | unfold t2, t3, t4; simpl; lia].
    unfold t3. rewrite !is_cont_tag by lia.
    assert (Hl : (224 <=? 224 + r / 4096) && (224 + r / 4096 <=? 239) = true).
    { simpl in Hq. apply andb_true_iff. split; apply Z.leb_le; lia. }
    rewrite Hl. cbn [andb]. f_equal. Z.div_mod_to_equations. lia. }
  cbn [map]. rewrite !cont_byte, !Z.shiftr_div_pow2 by lia.
  change (2 ^ 6) with 64. change (2 ^ 12) with 4096.
  change (2 ^ 18) with 262144.
  assert (Hq : 0 <= r / 262144 < 2 ^ 3) by (simpl; Z.div_mod_to_equations; lia).
  pose proof (Z.mod_pos_bound r 64 ltac:(lia)) as Hm.
  pose proof (Z.mod_pos_bound (r / 64) 64 ltac:(lia)) as Hm1.
  pose proof (Z.mod_pos_bound (r / 4096) 64 ltac:(lia)) as Hm2.
  rewrite (lead_byte t4 (r / 262144) 3) by first [reflexivity | assumption | unfold t2, t3, t4; simpl; lia].
  unfold t4. rewrite !is_cont_tag by lia.
  assert (Hl : (240 <=? 240 + r / 262144) && (240 + r / 262144 <=? 247) = true).
  { simpl in Hq. apply andb_true_iff. split; apply Z.leb_le; lia. }
  rewrite Hl. cbn [andb]. f_equal. Z.div_mod_to_equations. lia.
Qed.

(** ** The number source and the process ids *)

Lemma uniq_take_consecutive (k : nat) :
  forall i : Z,
  min_int <= i -> i + Z.of_nat k <= max_int + 1 ->
  uniq_take k i = map (fun j => i + Z.of_nat j) (seq 0 k).
Proof.
  induction k as [|k IH]; intros i Hlo Hhi; [reflexivity|].
  cbn [uniq_take uniq_recv]. cbn [seq map]. rewrite Z.add_0_r. f_equal.
  destruct k as [|k]; [reflexivity|].
  rewrite int_incr_small by lia.
  rewrite IH by lia.
  rewrite <- seq_shift, map_map. apply map_ext. intros j. lia.
Qed.

(** [StartProcess] takes one number from [uniq], whatever happens next,
    and the process it returns is named by the conversion of that
    number. *)
Lemma StartProcess_uniq (os_start : Cmd -> option error)
  (dir : option string) (args : list string) (out0 : chan) (w : World) :
  uniq (fst (fst (StartProcess os_start dir args out0 w))) = int_incr (uniq w) /\
  forall p : Process,
    snd (StartProcess os_start dir args out0 w) = Some p ->
    id p = string_of_int (uniq w).
Proof.
  unfold StartProcess, start. cbn [uniq_recv].
  destruct args as [|name arg]; cbn; [split; [reflexivity | discriminate]|].
  destruct (os_start _); cbn; split; try reflexivity; try discriminate.
  intros p [= <-]. reflexivity.
Qed.

(** Every call advances the generator by one. *)
Lemma after_starts_uniq (k : nat) (os_start : Cmd -> option error)
  (dir : option string) (args : list string) :
  forall w : World,
  min_int <= uniq w -> uniq w + Z.of_nat k <= max_int ->
  uniq (after_starts k os_start dir args w) = uniq w + Z.of_nat k.
Proof.
  induction k as [|k IH]; intros w Hlo Hhi; cbn [after_starts].
  - change (Z.of_nat 0) with 0. lia.
  - destruct (StartProcess_uniq os_start dir args [] w) as [Hu _].
    rewrite int_incr_small in Hu by lia.
    rewrite IH; rewrite Hu; lia.
Qed.

Lemma uniq_before_surrogate (os_start : Cmd -> option error)
  (dir : option string) (args : list string) :
  uniq (after_starts (Z.to_nat 0xD800) os_start dir args
          (mkWorld uniq_init [] [])) = 0xD800.
Proof.
  rewrite after_starts_uniq; cbn [uniq]; try rewrite Z2Nat.id by lia.
  - reflexivity.
  - apply msgLimit_bounds.
  - vm_compute. discriminate.
Qed.

(** Two different valid code points are converted to different
    strings. *)
Lemma string_of_int_injective (i j : Z) :
  valid_rune i = true -> valid_rune j = true ->
  string_of_int i = string_of_int j -> i = j.
Proof.
  intros Hi Hj Heq.
  pose proof (rune_of_encoderune i Hi) as Ri.
  pose proof (rune_of_encoderune j Hj) as Rj.
  unfold string_of_int in Heq. rewrite Hi, Hj in Heq.
  rewrite Heq in Ri. congruence.
Qed.

(** C9, as the code has it: the id of a started process is [string(i)]
    for the number [i] taken from [uniq]; when [i] is a valid code point
    this is the one-rune string with code point [i].  From its initial
    state the generator gives 0, 1, 2, ... in this order.  The first id
    is the string of the single byte 0, and no decimal numeral. *)
Theorem start_id_is_rune_of_counter (os_start : Cmd -> option error)
  (dir : option string) (args : list string) (out0 : chan) (w : World) :
  (forall p : Process,
     snd (StartProcess os_start dir args out0 w) = Some p ->
     id p = string_of_int (uniq w) /\
     (valid_rune (uniq w) = true -> rune_of_string (id p) = Some (uniq w))) /\
  uniq (fst (fst (StartProcess os_start dir args out0 w))) = int_incr (uniq w) /\
  (forall k : nat, Z.of_nat k <= max_int + 1 ->
     uniq_take k uniq_init = map Z.of_nat (seq 0 k)) /\
  string_of_int uniq_init = String zero EmptyString /\
  string_of_int uniq_init <> decimal_digit 0.
Proof.
  destruct (StartProcess_uniq os_start dir args out0 w) as [Hu Hid].
  split; [|split; [exact Hu|split; [|split]]].
  - intros p Hp. rewrite (Hid p Hp). split; [reflexivity|].
    intros Hv. unfold string_of_int. rewrite Hv. now apply rune_of_encoderune.
  - intros k Hk. rewrite uniq_take_consecutive.
    + reflexivity.
    + unfold uniq_init, min_int, int_bits. simpl. lia.
    + unfold uniq_init. lia.
  - reflexivity.
  - discriminate.
Qed.

Lemma start_id_is_rune_of_counter_witness :
  let os := fun _ : Cmd => @None error in
  let w := mkWorld 65 [] [] in
  exists p : Process,
    snd (StartProcess os None ["true"%string] [] w) = Some p /\
    rune_of_string (id p) = Some 65 /\
    uniq_take 3 uniq_init = [0; 1; 2].
Proof.
  intros os w.
  destruct (start_id_is_rune_of_counter os None ["true"%string] [] w)
    as (Hid & _ & Htake & _).
  eexists. split; [reflexivity|]. split.
  - apply Hid; reflexivity.
  - apply (Htake 3%nat). vm_compute. discriminate.
Defined.

(** C9 as stated fails at the first surrogate: the 55297th number
    taken from [uniq] is 0xD800, and the id made from it is the encoding
    of [runeError], whose code point is not that number. *)
Lemma start_id_of_surrogate :
  let os := fun _ : Cmd => @None error in
  let w := after_starts (Z.to_nat 0xD800) os None ["true"%string] (mkWorld uniq_init [] []) in
  uniq w = 0xD800 /\
  (exists p : Process,
     snd (StartProcess os None ["true"%string] [] w) = Some p /\
     id p = replacement_string /\
     rune_of_string (id p) = Some runeError /\
     rune_of_string (id p) <> Some (uniq w)).
Proof.
  intros os w.
  assert (Hw : uniq w = 0xD800) by apply uniq_before_surrogate.
  split; [exact Hw|].
  destruct (StartProcess_uniq os None ["true"%string] [] w) as [_ Hid].
  eexists. split; [reflexivity|].
  rewrite (Hid _ eq_refl), Hw.
  split; [vm_compute; reflexivity|].
  split; [vm_compute; reflexivity|].
  vm_compute. discriminate.
Qed.

(** C6 on the code: the 55297th and the 55298th call of
    [StartProcess] take two different numbers from [uniq], 0xD800 and
    0xD801, and both processes get the same id. *)
Lemma start_ids_collide :
  let os := fun _ : Cmd => @None error in
  let args := ["sleep"%string; "60"%string] in
  let w := after_starts (Z.to_nat 0xD800) os None args (mkWorld uniq_init [] []) in
  let r1 := StartProcess os None args [] w in
  let r2 := StartProcess os None args [] (fst (fst r1)) in
  uniq w = 0xD800 /\
  uniq (fst (fst r1)) = 0xD801 /\
  exists p1 p2 : Process,
    snd r1 = Some p1 /\ snd r2 = Some p2 /\
    id p1 = replacement_string /\ id p2 = replacement_string /\
    id p1 = id p2.
Proof.
  intros os args w r1 r2.
  assert (Hw : uniq w = 0xD800) by apply uniq_before_surrogate.
  destruct (StartProcess_uniq os None args [] w) as [Hu1 Hid1].
  destruct (StartProcess_uniq os None args [] (fst (fst r1))) as [_ Hid2].
  fold r1 in Hu1, Hid1. fold r2 in Hid2.
  assert (Hw1 : uniq (fst (fst r1)) = 0xD801).
  { rewrite Hu1, Hw. reflexivity. }
  split; [exact Hw|]. split; [exact Hw1|].
  assert (H1 : exists p1, snd r1 = Some p1) by (eexists; reflexivity).
  assert (H2 : exists p2, snd r2 = Some p2) by (eexists; reflexivity).
  destruct H1 as [p1 H1], H2 as [p2 H2].
  exists p1, p2.
  pose proof (Hid1 p1 H1) as E1. pose proof (Hid2 p2 H2) as E2.
  rewrite Hw in E1. rewrite Hw1 in E2.
  assert (R1 : string_of_int 0xD800 = replacement_string) by (vm_compute; reflexivity).
  assert (R2 : string_of_int 0xD801 = replacement_string) by (vm_compute; reflexivity).
  repeat split; congruence.
Qed.

(** ** Starting a process *)

Lemma StartProcess_empty (os_start : Cmd -> option error)
  (dir : option string) (out0 : chan) (w : World) :
  StartProcess os_start dir [] out0 w =
  (mkWorld (int_incr (uniq w)) (start_calls w) (children w),
   out0 ++ [Send (end_message (string_of_int (uniq w))
                    (Some (errors_New "No arguments found")))] ++ [Close],
   None).
Proof. unfold StartProcess. cbn. now rewrite <- app_assoc. Qed.

Lemma StartProcess_failed (os_start : Cmd -> option error)
  (dir : option string) (name : string) (arg : list string)
  (out0 : chan) (w : World) (err : error) :
  os_start (cmd (new_process w out0) dir name arg) = Some err ->
  StartProcess os_start dir (name :: arg) out0 w =
  (mkWorld (int_incr (uniq w))
     (cmd (new_process w out0) dir name arg :: start_calls w) (children w),
   out0 ++ [Send (end_message (string_of_int (uniq w)) (Some err))] ++ [Close],
   None).
Proof.
  intros Hos. unfold StartProcess, start. cbn [uniq_recv uniq start_calls children].
  fold (new_process w out0). rewrite Hos. cbn. now rewrite <- app_assoc.
Qed.

Lemma StartProcess_started (os_start : Cmd -> option error)
  (dir : option string) (name : string) (arg : list string)
  (out0 : chan) (w : World) :
  os_start (cmd (new_process w out0) dir name arg) = None ->
  StartProcess os_start dir (name :: arg) out0 w =
  (mkWorld (int_incr (uniq w))
     (cmd (new_process w out0) dir name arg :: start_calls w)
     (cmd (new_process w out0) dir name arg :: children w),
   out0,
   Some (set_run (new_process w out0)
           (Some (cmd (new_process w out0) dir name arg)))).
Proof.
  intros Hos. unfold StartProcess, start. cbn [uniq_recv uniq start_calls children].
  fold (new_process w out0). now rewrite Hos.
Qed.

(** The three ways [StartProcess] can go. *)
Lemma StartProcess_cases (os_start : Cmd -> option error)
  (dir : option string) (args : list string) (out0 : chan) (w : World) :
  (exists err : error,
     StartProcess os_start dir args out0 w =
     (fst (fst (StartProcess os_start dir args out0 w)),
      out0 ++ [Send (end_message (string_of_int (uniq w)) (Some err))] ++ [Close],
      None)) \/
  (exists c : Cmd,
     Stdout c = mkWriter (string_of_int (uniq w)) "stdout" /\
     Stderr c = mkWriter (string_of_int (uniq w)) "stderr" /\
     StartProcess os_start dir args out0 w =
     (fst (fst (StartProcess os_start dir args out0 w)),
      out0,
      Some (mkProcess (string_of_int (uniq w)) out0 false (Some c)))).
Proof.
  destruct args as [|name arg].
  - left. eexists. rewrite StartProcess_empty. reflexivity.
  - destruct (os_start (cmd (new_process w out0) dir name arg)) as [err|] eqn:Hos.
    + left. exists err. now rewrite (StartProcess_failed _ _ _ _ _ _ _ Hos).
    + right. exists (cmd (new_process w out0) dir name arg).
      rewrite (StartProcess_started _ _ _ _ _ _ Hos).
      split; [reflexivity|]. split; reflexivity.
Qed.

(** C3, as the code has it: with no command the call returns nil, makes
    no [cmd.Start()] call and starts no child, whatever the operating
    system would have answered; the failure is reported like a failed
    spawn: one [end] message with the text of the error is sent on the
    output channel, which is then closed. *)
Theorem StartProcess_no_arguments (os_start : Cmd -> option error)
  (dir : option string) (out0 : chan) (w : World) :
  let r := StartProcess os_start dir [] out0 w in
  snd r = None /\
  start_calls (fst (fst r)) = start_calls w /\
  children (fst (fst r)) = children w /\
  snd (fst r) =
    out0 ++ [Send (mkMessage (string_of_int (uniq w)) "end" "No arguments found");
             Close] /\
  messages (snd (fst r)) =
    messages out0 ++
    [mkMessage (string_of_int (uniq w)) "end" "No arguments found"] /\
  forall os_start' : Cmd -> option error,
    StartProcess os_start' dir [] out0 w = r.
Proof.
  intros r. unfold r. rewrite StartProcess_empty. cbn [fst snd start_calls children].
  repeat split.
  - unfold messages. rewrite flat_map_app. reflexivity.
  - intros os'. now rewrite StartProcess_empty.
Qed.

(** C3 as stated fails: the call with no command does send a message
    on the output channel. *)
Lemma empty_command_sends_end_message :
  let os := fun _ : Cmd => @None error in
  let r := StartProcess os None [] [] (mkWorld uniq_init [] []) in
  snd r = None /\
  snd (fst r) =
    [Send (mkMessage (String zero EmptyString) "end" "No arguments found");
     Close] /\
  ~ (forall (os_start : Cmd -> option error) (dir : option string)
       (out0 : chan) (w : World),
       messages (snd (fst (StartProcess os_start dir [] out0 w))) =
       messages out0).
Proof.
  intros os r. split; [reflexivity|]. split; [reflexivity|].
  intros H. specialize (H os None [] (mkWorld uniq_init [] [])).
  vm_compute in H. discriminate H.
Qed.

(** C4: the spawn fails with an error whose text is not empty.  The
    call returns nil; what it does to the output channel is to send one
    [end] message whose body is that text, and then to close it; no
    child is added. *)
Theorem StartProcess_spawn_failure (os_start : Cmd -> option error)
  (dir : option string) (name : string) (arg : list string)
  (out0 : chan) (w : World) (err : error) :
  os_start (cmd (new_process w out0) dir name arg) = Some err ->
  Error err <> "" ->
  let r := StartProcess os_start dir (name :: arg) out0 w in
  snd r = None /\
  children (fst (fst r)) = children w /\
  (exists m : Message,
     snd (fst r) = out0 ++ [Send m; Close] /\
     messages (snd (fst r)) = messages out0 ++ [m] /\
     end_messages (snd (fst r)) = end_messages out0 ++ [m] /\
     Id m = string_of_int (uniq w) /\
     Kind m = "end" /\
     Body m = Error err /\
     Body m <> "").
Proof.
  intros Hos Hne r. unfold r. rewrite (StartProcess_failed _ _ _ _ _ _ _ Hos).
  cbn [fst snd children]. repeat split.
  eexists. split; [reflexivity|].
  unfold end_messages, messages. rewrite flat_map_app, filter_app.
  repeat split. exact Hne.
Qed.

Lemma StartProcess_spawn_failure_witness :
  let os := fun _ : Cmd => Some (mkError "exec: no such file") in
  let r := StartProcess os None ["./does-not-exist"%string] []
             (mkWorld uniq_init [] []) in
  snd r = None /\
  exists m : Message,
    snd (fst r) = [Send m; Close] /\ Kind m = "end" /\ Body m <> "".
Proof.
  intros os r.
  assert (Hos : os (cmd (new_process (mkWorld uniq_init [] []) [])
                      None "./does-not-exist" []) =
                Some (mkError "exec: no such file")) by reflexivity.
  assert (Hne : Error (mkError "exec: no such file") <> "") by discriminate.
  destruct (StartProcess_spawn_failure os None "./does-not-exist" [] []
              (mkWorld uniq_init [] []) _ Hos Hne)
    as (Hnil & _ & m & Hout & _ & _ & _ & Hk & _ & Hb).
  split; [exact Hnil|]. exists m. repeat split; assumption.
Defined.

(** ** The life of a started process *)

Lemma Forall_set_nth {A : Type} (P : A -> Prop) (a : A) (l : list A) :
  forall k : nat, Forall P l -> P a -> Forall P (set_nth k a l).
Proof.
  induction l as [|x l IH]; intros k Hl Ha; [destruct k; constructor|].
  inversion Hl as [|? ? Hx Hl']; subst.
  destruct k as [|k]; simpl; constructor; auto.
Qed.

Lemma nth_error_set_nth {A : Type} (a : A) (l : list A) :
  forall k : nat, (k < List.length l)%nat ->
  nth_error (set_nth k a l) k = Some a.
Proof.
  induction l as [|x l IH]; intros k Hk; simpl in Hk; [lia|].
  destruct k as [|k]; simpl; [reflexivity|]. apply IH. lia.
Qed.

Lemma length_set_nth {A : Type} (a : A) (l : list A) :
  forall k : nat, List.length (set_nth k a l) = List.length l.
Proof.
  induction l as [|x l IH]; intros [|k]; simpl; auto.
Qed.

Lemma set_nth_app_last {A : Type} (a b : A) (l : list A) :
  set_nth (List.length l) a (l ++ [b]) = l ++ [a].
Proof. induction l as [|x l IH]; simpl; congruence. Qed.

Lemma messages_app (h h' : chan) : messages (h ++ h') = messages h ++ messages h'.
Proof. apply flat_map_app. Qed.

Lemma messages_map_Send (ms : list Message) : messages (map Send ms) = ms.
Proof. induction ms as [|m ms IH]; simpl; congruence. Qed.

Lemma output_non_terminal (i : string) (m : Message) :
  is_output_of i m -> non_terminal m = true.
Proof.
  intros [_ [H | H]]; unfold non_terminal, is_end; now rewrite H.
Qed.

Lemma outputs_non_terminal (i : string) (ms : list Message) :
  Forall (is_output_of i) ms -> forallb non_terminal ms = true.
Proof.
  induction 1 as [|m ms Hm _ IH]; [reflexivity|].
  simpl. now rewrite (output_non_terminal i m Hm).
Qed.

(** The invariant holds when [StartProcess] returns the process. *)
Lemma init_lifecycle_inv (out0 : chan) (i : string) (c : Cmd) :
  Stdout c = mkWriter i "stdout" -> Stderr c = mkWriter i "stderr" ->
  lifecycle_inv out0 i (init_system (mkProcess i out0 false (Some c))).
Proof.
  intros Ho He. split; [reflexivity|]. split; [now exists c|].
  split; [|constructor].
  exists []. split; [constructor|]. cbn. now rewrite app_nil_r.
Qed.

(** Every step keeps the invariant. *)
Lemma step_lifecycle_inv (out0 : chan) (i : string) (l : label) (s s' : System) :
  lifecycle_inv out0 i s -> step l s = Some s' -> lifecycle_inv out0 i s'.
Proof.
  intros (Hid & (c & Hrun & Hso & Hse) & (pre & Hpre & Hw) & Hk) Hstep.
  destruct s as [[pid pout pdone prun] ch sg wt ks].
  cbn [proc id out Done run child wait_task kill_calls] in *. subst pid.
  destruct l as [st b | status | | h | k]; cbn [step] in Hstep.
  - (* the child writes *)
    cbn [child proc run] in Hstep. destruct ch as [|fin]; [|discriminate].
    rewrite Hrun in Hstep. cbn in Hstep. injection Hstep as <-.
    set (m := mkMessage (w_id (match st with ToStdout => Stdout c | ToStderr => Stderr c end))
                (w_kind (match st with ToStdout => Stdout c | ToStderr => Stderr c end))
                (string_of_bytes b)).
    assert (Hm : is_output_of i m).
    { unfold m. destruct st; [rewrite Hso | rewrite Hse]; cbn; split; auto. }
    split; [reflexivity|]. split; [now exists c|]. split; [|exact Hk].
    exists (pre ++ [m]). split; [apply Forall_app; split; auto|].
    cbn [wait_task proc out Done child].
    destruct wt as [|err| |].
    + destruct Hw as [Ho Hd]. split; [|exact Hd].
      rewrite Ho, map_app, app_assoc. reflexivity.
    + destruct Hw as (_ & _ & Hc). discriminate Hc.
    + destruct Hw as (err & _ & _ & Hc). discriminate Hc.
    + destruct Hw as (err & _ & _ & Hc). discriminate Hc.
  - (* the child exits *)
    cbn [child] in Hstep. destruct ch as [|fin]; [|discriminate].
    injection Hstep as <-.
    split; [reflexivity|]. split; [now exists c|]. split; [|exact Hk].
    exists pre. split; [exact Hpre|].
    cbn [wait_task proc out Done child].
    destruct wt as [|err| |].
    + exact Hw.
    + destruct Hw as (_ & _ & Hc). discriminate Hc.
    + destruct Hw as (err & _ & _ & Hc). discriminate Hc.
    + destruct Hw as (err & _ & _ & Hc). discriminate Hc.
  - (* a statement of wait *)
    unfold wait_step in Hstep. cbn [wait_task child proc signals kill_calls] in Hstep.
    destruct wt as [|err| |].
    + destruct ch as [|fin]; [discriminate|]. injection Hstep as <-.
      destruct Hw as [Ho Hd].
      split; [reflexivity|]. split; [now exists c|]. split; [|exact Hk].
      exists pre. split; [exact Hpre|]. cbn. auto.
    + injection Hstep as <-. destruct Hw as (Ho & Hd & Hc).
      split; [reflexivity|]. split; [now exists c|]. split; [|exact Hk].
      exists pre. split; [exact Hpre|].
      cbn [wait_task proc end_ set_out out Done child id].
      exists err. split; [|auto].
      rewrite Ho, map_app, app_assoc. reflexivity.
    + injection Hstep as <-. destruct Hw as (err & Ho & Hd & Hc).
      split; [reflexivity|]. split; [now exists c|]. split.
      * exists pre. split; [exact Hpre|]. cbn. exists err. auto.
      * cbn. apply Forall_forall. auto.
    + discriminate.
  - (* a call of Kill *)
    injection Hstep as <-. destruct h as [q|]; cbn [Kill].
    + split; [reflexivity|]. split; [now exists c|].
      split; [exists pre; split; [exact Hpre | exact Hw]|].
      cbn. apply Forall_app. split; [exact Hk|].
      constructor; [discriminate | constructor].
    + split; [reflexivity|]. split; [now exists c|].
      split; [exists pre; split; [exact Hpre | exact Hw]|]. exact Hk.
  - (* a statement of Kill *)
    unfold kill_step in Hstep. cbn [kill_calls proc child signals wait_task Done] in Hstep.
    destruct (nth_error ks k) as [[| |]|]; try discriminate.
    + injection Hstep as <-.
      split; [reflexivity|]. split; [now exists c|].
      split; [exists pre; split; [exact Hpre | exact Hw]|].
      cbn. apply Forall_set_nth; [exact Hk | discriminate].
    + destruct pdone eqn:Hd; [|discriminate]. injection Hstep as <-.
      split; [reflexivity|]. split; [now exists c|].
      split; [exists pre; split; [exact Hpre | exact Hw]|].
      cbn. apply Forall_set_nth; [exact Hk | reflexivity].
Qed.

Lemma steps_lifecycle_inv (out0 : chan) (i : string) (ls : list label) :
  forall s s' : System,
  lifecycle_inv out0 i s -> steps ls s = Some s' -> lifecycle_inv out0 i s'.
Proof.
  induction ls as [|l ls IH]; intros s s' Hinv Hsteps; cbn [steps] in Hsteps.
  - now injection Hsteps as <-.
  - destruct (step l s) as [s1|] eqn:Hstep; [|discriminate].
    eapply IH; [|exact Hsteps]. eapply step_lifecycle_inv; eassumption.
Qed.

Lemma steps_app (ls ls' : list label) :
  forall s s' : System,
  steps ls s = Some s' -> steps (ls ++ ls') s = steps ls' s'.
Proof.
  induction ls as [|l ls IH]; intros s s' H; cbn [steps app] in *.
  - now injection H as <-.
  - destruct (step l s); [now apply IH | discriminate].
Qed.

Lemma filter_is_end_outputs (i : string) (ms : list Message) :
  Forall (is_output_of i) ms -> filter is_end ms = [].
Proof.
  induction 1 as [|m ms Hm _ IH]; [reflexivity|].
  simpl. apply output_non_terminal in Hm. apply is_end_non_terminal in Hm.
  now rewrite Hm.
Qed.

Lemma outputs_have_id (i : string) (ms : list Message) :
  Forall (is_output_of i) ms -> Forall (fun m => Id m = i) ms.
Proof. apply Forall_impl. now intros m [H _]. Qed.

(** From every state of the life of a process the goroutine [p.wait()]
    can be brought to its end: the child exits if it still runs, and
    the statements of [wait] follow. *)
Lemma lifecycle_can_finish (out0 : chan) (i : string) (s : System) :
  lifecycle_inv out0 i s ->
  exists (ls : list label) (s' : System),
    steps ls s = Some s' /\ wait_task s' = WaitDone /\
    Done (proc s') = true /\ kill_calls s' = kill_calls s /\
    (forall status, child s = Finished status ->
       Forall (fun l => l = WaitStep) ls).
Proof.
  intros Hinv.
  destruct Hinv as (_ & _ & (pre & _ & Hw) & _).
  destruct s as [p ch sg wt ks]. cbn [proc child wait_task kill_calls] in *.
  destruct wt as [|err| |].
  - destruct ch as [|fin].
    + exists [ChildExits None; WaitStep; WaitStep; WaitStep]. eexists.
      split; [reflexivity|]. repeat split. intros status H. discriminate H.
    + exists [WaitStep; WaitStep; WaitStep]. eexists.
      split; [reflexivity|]. repeat split. intros _ _. repeat constructor.
  - exists [WaitStep; WaitStep]. eexists.
    split; [reflexivity|]. repeat split. intros _ _. repeat constructor.
  - exists [WaitStep]. eexists.
    split; [reflexivity|]. repeat split. intros _ _. repeat constructor.
  - destruct Hw as (err & _ & Hd & _).
    exists []. eexists. split; [reflexivity|]. repeat split.
    + exact Hd.
    + intros _ _. constructor.
Qed.

(** C1: one call of [StartProcess] and all that follows from it.  When
    no process is returned, one [end] message with the id taken for the
    process is sent, and the channel is closed.  When a process is
    returned, then at every moment of its life the messages sent for it
    all carry its id, at most one of them is an [end] message, none is
    before [p.wait()] has called [end], and from then on there is
    exactly one and it is the last message sent; and the life can
    always be brought to that point. *)
Theorem one_end_message_and_it_is_last (os_start : Cmd -> option error)
  (dir : option string) (args : list string) (out0 : chan) (w : World) :
  let r := StartProcess os_start dir args out0 w in
  let i := string_of_int (uniq w) in
  (snd r = None ->
     exists e : Message,
       snd (fst r) = out0 ++ map Send [e] ++ [Close] /\
       Id e = i /\ is_end e = true) /\
  (forall (p : Process) (ls : list label) (s : System),
     snd r = Some p ->
     steps ls (init_system p) = Some s ->
     id p = i /\
     (exists emitted : list Message,
        out (proc s) = out0 ++ map Send emitted /\
        Forall (fun m => Id m = i) emitted /\
        (List.length (filter is_end emitted) <= 1)%nat /\
        (ended s = false -> filter is_end emitted = []) /\
        (ended s = true ->
           exists (pre : list Message) (e : Message),
             emitted = pre ++ [e] /\
             is_end e = true /\
             forallb non_terminal pre = true /\
             filter is_end emitted = [e] /\
             last emitted e = e)) /\
     (exists (ls' : list label) (s' : System),
        steps ls' s = Some s' /\ ended s' = true /\ Done (proc s') = true)).
Proof.
  intros r i.
  destruct (StartProcess_cases os_start dir args out0 w)
    as [(err & Hr) | (c & Hso & Hse & Hr)]; fold r in Hr; fold i in Hr;
    try fold i in Hso; try fold i in Hse.
  - split.
    + intros _. rewrite Hr. cbn [fst snd].
      exists (end_message i (Some err)). repeat split.
    + intros p ls s Hp. rewrite Hr in Hp. discriminate Hp.
  - split.
    + intros Hnil. rewrite Hr in Hnil. discriminate Hnil.
    + intros p ls s Hp Hsteps. rewrite Hr in Hp. cbn [snd] in Hp.
      injection Hp as <-.
      pose proof (steps_lifecycle_inv out0 i ls _ s
                    (init_lifecycle_inv out0 i c Hso Hse) Hsteps) as Hinv.
      split; [reflexivity|]. split.
      * destruct Hinv as (_ & _ & (pre & Hpre & Hw) & _).
        pose proof (filter_is_end_outputs i pre Hpre) as Hnone.
        pose proof (outputs_have_id i pre Hpre) as Hids.
        pose proof (outputs_non_terminal i pre Hpre) as Hnt.
        unfold ended. destruct (wait_task s) as [|err| |].
        -- destruct Hw as [Ho _]. exists pre. rewrite Hnone.
           repeat split; auto. discriminate.
        -- destruct Hw as (Ho & _). exists pre. rewrite Hnone.
           repeat split; auto. discriminate.
        -- destruct Hw as (err & Ho & _). exists (pre ++ [end_message i err]).
           rewrite filter_app, Hnone.
           split; [exact Ho|]. split.
           { apply Forall_app. split; [exact Hids | now constructor]. }
           split; [cbn; lia|]. split; [discriminate|].
           intros _. exists pre, (end_message i err).
           repeat split; auto. apply last_last.
        -- destruct Hw as (err & Ho & _). exists (pre ++ [end_message i err]).
           rewrite filter_app, Hnone.
           split; [exact Ho|]. split.
           { apply Forall_app. split; [exact Hids | now constructor]. }
           split; [cbn; lia|]. split; [discriminate|].
           intros _. exists pre, (end_message i err).
           repeat split; auto. apply last_last.
      * destruct (lifecycle_can_finish out0 i s Hinv)
          as (ls' & s' & Hs' & Hwt & Hd & _).
        exists ls', s'. unfold ended. rewrite Hwt. auto.
Qed.

Lemma one_end_message_and_it_is_last_witness :
  let os := fun _ : Cmd => @None error in
  let w := mkWorld 65 [] [] in
  let ls := [ChildWrites ToStdout (list_ascii_of_string "hello");
             KillCall (Some (new_process w []));
             ChildWrites ToStderr (list_ascii_of_string "oops");
             KillStep 0; ChildExits (Some (mkError "signal: killed"));
             WaitStep; WaitStep; WaitStep; KillStep 0] in
  exists (p : Process) (s : System),
    snd (StartProcess os None ["yes"%string] [] w) = Some p /\
    steps ls (init_system p) = Some s /\
    exists emitted : list Message,
      out (proc s) = map Send emitted /\
      (List.length (filter is_end emitted) <= 1)%nat.
Proof.
  intros os w ls.
  set (p0 := set_run (new_process w []) (Some (cmd (new_process w []) None "yes" []))).
  assert (Hp : snd (StartProcess os None ["yes"%string] [] w) = Some p0)
    by (vm_compute; reflexivity).
  destruct (steps ls (init_system p0)) as [s0|] eqn:Hs;
    [|vm_compute in Hs; discriminate Hs].
  exists p0, s0.
  split; [exact Hp|]. split; [exact Hs|].
  destruct (one_end_message_and_it_is_last os None ["yes"%string] [] w)
    as [_ H].
  destruct (H _ ls _ Hp Hs) as (_ & (emitted & Ho & _ & Hn & _) & _).
  exists emitted. split; [exact Ho | exact Hn].
Defined.

(** ** Killing a process *)

Lemma kill_step_signal (k : nat) (s : System) :
  nth_error (kill_calls s) k = Some KillSignal ->
  kill_step k s =
  Some (mkSystem (proc s) (child s)
          (match child s with Running => S (signals s) | Finished _ => signals s end)
          (wait_task s) (set_nth k KillRecv (kill_calls s))).
Proof. intros H. unfold kill_step. now rewrite H. Qed.

Lemma kill_step_recv (k : nat) (s : System) :
  nth_error (kill_calls s) k = Some KillRecv ->
  kill_step k s =
  if Done (proc s)
  then Some (mkSystem (proc s) (child s) (signals s) (wait_task s)
               (set_nth k KillReturned (kill_calls s)))
  else None.
Proof. intros H. unfold kill_step. now rewrite H. Qed.

Lemma nth_error_lt {A : Type} (l : list A) (k : nat) (a : A) :
  nth_error l k = Some a -> (k < List.length l)%nat.
Proof. intros H. apply nth_error_Some. congruence. Qed.

(** A call of [Kill] on a process whose [Done] is closed runs through
    without changing anything but its own record. *)
Lemma Kill_after_Done (out0 : chan) (i : string) (h : Process) (s : System) :
  lifecycle_inv out0 i s ->
  Done (proc s) = true ->
  steps [KillCall (Some h); KillStep (List.length (kill_calls s));
         KillStep (List.length (kill_calls s))] s =
  Some (mkSystem (proc s) (child s) (signals s) (wait_task s)
          (kill_calls s ++ [KillReturned])).
Proof.
  intros (_ & _ & (pre & _ & Hw) & _) Hd.
  destruct s as [p ch sg wt ks]. cbn [proc child signals wait_task kill_calls] in *.
  assert (Hch : exists st, ch = Finished st).
  { destruct wt as [|err| |].
    - destruct Hw as [_ Hf]. congruence.
    - destruct Hw as (_ & Hf & _). congruence.
    - destruct Hw as (err & _ & Hf & _). congruence.
    - destruct Hw as (err & _ & _ & Hc). now exists err. }
  destruct Hch as [st ->].
  cbn [steps step Kill]. rewrite kill_step_signal; cbn [kill_calls].
  2:{ rewrite nth_error_app2 by lia. now rewrite Nat.sub_diag. }
  cbn [proc child signals wait_task]. rewrite set_nth_app_last.
  rewrite kill_step_recv; cbn [kill_calls proc].
  2:{ rewrite nth_error_app2 by lia. now rewrite Nat.sub_diag. }
  rewrite Hd. cbn [child signals wait_task]. now rewrite set_nth_app_last.
Qed.

(** Once the child has exited, a pending call of [Kill] can be brought
    to its return by the goroutine [p.wait()] and the call itself. *)
Lemma Kill_can_return (out0 : chan) (i : string) (k : nat) (s : System)
  (status : option error) :
  lifecycle_inv out0 i s ->
  child s = Finished status ->
  nth_error (kill_calls s) k = Some KillSignal \/
  nth_error (kill_calls s) k = Some KillRecv ->
  exists (ls : list label) (s' : System),
    steps ls s = Some s' /\
    nth_error (kill_calls s') k = Some KillReturned /\
    Forall (of_wait_or_kill k) ls.
Proof.
  intros Hinv Hch Hk.
  destruct (lifecycle_can_finish out0 i s Hinv)
    as (ls & s1 & Hs1 & Hwt & Hd & Hks & Honly).
  specialize (Honly status Hch).
  assert (Hfa : Forall (of_wait_or_kill k) ls).
  { eapply Forall_impl; [|exact Honly]. intros l ->. now left. }
  assert (Hlt : (k < List.length (kill_calls s))%nat)
    by (destruct Hk as [Hk | Hk]; eapply nth_error_lt; exact Hk).
  rewrite <- Hks in Hk, Hlt.
  destruct Hk as [Hk | Hk].
  - exists (ls ++ [KillStep k; KillStep k]). eexists. split; [|split].
    + rewrite (steps_app ls _ s s1 Hs1). cbn [steps step].
      rewrite (kill_step_signal k s1 Hk).
      rewrite kill_step_recv; cbn [kill_calls proc].
      * rewrite Hd. reflexivity.
      * now apply nth_error_set_nth.
    + cbn [kill_calls]. apply nth_error_set_nth.
      now rewrite length_set_nth.
    + apply Forall_app. split; [exact Hfa|].
      repeat constructor; now right.
  - exists (ls ++ [KillStep k]). eexists. split; [|split].
    + rewrite (steps_app ls _ s s1 Hs1). cbn [steps step].
      rewrite (kill_step_recv k s1 Hk), Hd. reflexivity.
    + cbn [kill_calls]. now apply nth_error_set_nth.
    + apply Forall_app. split; [exact Hfa|].
      repeat constructor; now right.
Qed.

Lemma Done_iff_WaitDone (out0 : chan) (i : string) (s : System) :
  lifecycle_inv out0 i s ->
  (Done (proc s) = true <-> wait_task s = WaitDone) /\
  (wait_task s = WaitDone ->
     (exists status, child s = Finished status) /\
     exists (pre : list Message) (e : Message),
       out (proc s) = out0 ++ map Send (pre ++ [e]) /\
       is_end e = true /\ Id e = i).
Proof.
  intros (_ & _ & (pre & _ & Hw) & _).
  destruct (wait_task s) as [|err| |].
  - destruct Hw as [_ Hd]. split; [split|]; intros H; congruence.
  - destruct Hw as (_ & Hd & _). split; [split|]; intros H; congruence.
  - destruct Hw as (err & _ & Hd & _). split; [split|]; intros H; congruence.
  - destruct Hw as (err & Ho & Hd & Hc). split; [split; auto|].
    intros _. split; [now exists err|].
    exists pre, (end_message i err). now repeat split.
Qed.

(** C5: [Kill] on a nil pointer does nothing.  On the process returned
    by [StartProcess], at every moment of its life: a call first asks
    the operating system to kill the child (the signal reaches the child
    if it still runs) and sends nothing; it then cannot go on while
    [Done] is open and returns when [Done] is closed; [Done] is closed
    exactly when [p.wait()] has finished, so a call that has returned
    finds the child gone and the [end] message sent; when [Done] is
    closed already a call, and a second one after it, run through and
    change nothing else; and once the child has exited every pending
    call can be brought to its return by [p.wait()] and the call
    itself. *)
Theorem Kill_waits_for_Done (os_start : Cmd -> option error)
  (dir : option string) (args : list string) (out0 : chan) (w : World)
  (p : Process) (ls : list label) (s : System) :
  snd (StartProcess os_start dir args out0 w) = Some p ->
  steps ls (init_system p) = Some s ->
  Kill None s = s /\
  step (KillCall None) s = Some s /\
  kill_calls (Kill (Some p) s) = kill_calls s ++ [KillSignal] /\
  (forall k : nat,
     nth_error (kill_calls s) k = Some KillSignal ->
     exists s' : System,
       step (KillStep k) s = Some s' /\
       nth_error (kill_calls s') k = Some KillRecv /\
       proc s' = proc s /\
       (child s = Running -> signals s' = S (signals s))) /\
  (forall k : nat,
     nth_error (kill_calls s) k = Some KillRecv ->
     (Done (proc s) = false -> step (KillStep k) s = None) /\
     (Done (proc s) = true ->
        exists s' : System,
          step (KillStep k) s = Some s' /\
          nth_error (kill_calls s') k = Some KillReturned /\
          proc s' = proc s)) /\
  (forall k : nat,
     nth_error (kill_calls s) k = Some KillReturned ->
     Done (proc s) = true /\
     wait_task s = WaitDone /\
     (exists status, child s = Finished status) /\
     exists (pre : list Message) (e : Message),
       out (proc s) = out0 ++ map Send (pre ++ [e]) /\
       is_end e = true /\ Id e = id p) /\
  (Done (proc s) = true <-> wait_task s = WaitDone) /\
  (Done (proc s) = true ->
     let n := List.length (kill_calls s) in
     steps [KillCall (Some p); KillStep n; KillStep n] s =
       Some (mkSystem (proc s) (child s) (signals s) (wait_task s)
               (kill_calls s ++ [KillReturned])) /\
     steps [KillCall (Some p); KillStep n; KillStep n;
            KillCall (Some p); KillStep (S n); KillStep (S n)] s =
       Some (mkSystem (proc s) (child s) (signals s) (wait_task s)
               (kill_calls s ++ [KillReturned; KillReturned]))) /\
  (forall (k : nat) (status : option error),
     child s = Finished status ->
     nth_error (kill_calls s) k = Some KillSignal \/
     nth_error (kill_calls s) k = Some KillRecv ->
     exists (ls' : list label) (s' : System),
       steps ls' s = Some s' /\
       nth_error (kill_calls s') k = Some KillReturned /\
       Forall (of_wait_or_kill k) ls').
Proof.
  intros Hp Hsteps.
  destruct (StartProcess_cases os_start dir args out0 w)
    as [(err & Hr) | (c & Hso & Hse & Hr)]; rewrite Hr in Hp; cbn [snd] in Hp;
    [discriminate|].
  injection Hp as <-. set (i := string_of_int (uniq w)) in *.
  pose proof (steps_lifecycle_inv out0 i ls _ s
                (init_lifecycle_inv out0 i c Hso Hse) Hsteps) as Hinv.
  destruct (Done_iff_WaitDone out0 i s Hinv) as [Hiff Hdone].
  split; [reflexivity|]. split; [reflexivity|]. split; [reflexivity|].
  split; [|split; [|split; [|split; [exact Hiff|split]]]].
  - intros k Hk. eexists. cbn [step]. rewrite (kill_step_signal k s Hk).
    split; [reflexivity|]. cbn [kill_calls proc signals]. split; [|split].
    + apply nth_error_set_nth. eapply nth_error_lt; exact Hk.
    + reflexivity.
    + intros ->. reflexivity.
  - intros k Hk. cbn [step]. rewrite (kill_step_recv k s Hk). split.
    + intros ->. reflexivity.
    + intros ->. eexists. split; [reflexivity|]. cbn [kill_calls proc].
      split; [|reflexivity].
      apply nth_error_set_nth. eapply nth_error_lt; exact Hk.
  - intros k Hk.
    destruct Hinv as (_ & _ & _ & Hret).
    rewrite Forall_forall in Hret.
    assert (Hd : Done (proc s) = true).
    { apply (Hret KillReturned); [|reflexivity]. eapply nth_error_In; exact Hk. }
    pose proof (proj1 Hiff Hd) as Hwt.
    split; [exact Hd|]. split; [exact Hwt|]. exact (Hdone Hwt).
  - intros Hd n. unfold n.
    pose proof (Kill_after_Done out0 i (mkProcess i out0 false (Some c)) s Hinv Hd)
      as H1.
    split; [exact H1|].
    set (s1 := mkSystem (proc s) (child s) (signals s) (wait_task s)
                 (kill_calls s ++ [KillReturned])) in *.
    pose proof (steps_lifecycle_inv out0 i _ s s1 Hinv H1) as Hinv1.
    pose proof (Kill_after_Done out0 i (mkProcess i out0 false (Some c)) s1 Hinv1 Hd)
      as H2.
    change (steps ([KillCall (Some (mkProcess i out0 false (Some c)));
                    KillStep (List.length (kill_calls s));
                    KillStep (List.length (kill_calls s))] ++
                   [KillCall (Some (mkProcess i out0 false (Some c)));
                    KillStep (S (List.length (kill_calls s)));
                    KillStep (S (List.length (kill_calls s)))]) s =
            Some (mkSystem (proc s) (child s) (signals s) (wait_task s)
                    (kill_calls s ++ [KillReturned; KillReturned]))).
    rewrite (steps_app _ _ s s1 H1).
    replace (S (List.length (kill_calls s))) with (List.length (kill_calls s1))
      by (unfold s1; cbn [kill_calls]; rewrite length_app; simpl; lia).
    rewrite H2. unfold s1. cbn [proc child signals wait_task kill_calls].
    now rewrite <- app_assoc.
  - intros k status Hch Hk. exact (Kill_can_return out0 i k s status Hinv Hch Hk).
Qed.

Lemma Kill_waits_for_Done_witness :
  let os := fun _ : Cmd => @None error in
  let w := mkWorld 65 [] [] in
  let h := new_process w [] in
  let ls := [KillCall (Some h); ChildWrites ToStdout (list_ascii_of_string "y");
             KillStep 0; ChildExits (Some (mkError "signal: killed"));
             WaitStep; WaitStep; WaitStep; KillStep 0] in
  exists (p : Process) (s : System),
    snd (StartProcess os None ["yes"%string] [] w) = Some p /\
    steps ls (init_system p) = Some s /\
    nth_error (kill_calls s) 0 = Some KillReturned /\
    Done (proc s) = true /\ wait_task s = WaitDone.
Proof.
  intros os w h ls.
  set (p0 := set_run (new_process w []) (Some (cmd (new_process w []) None "yes" []))).
  assert (Hp : snd (StartProcess os None ["yes"%string] [] w) = Some p0)
    by (vm_compute; reflexivity).
  destruct (steps ls (init_system p0)) as [s0|] eqn:Hs;
    [|vm_compute in Hs; discriminate Hs].
  exists p0, s0.
  split; [exact Hp|]. split; [exact Hs|].
  assert (Hk : nth_error (kill_calls s0) 0 = Some KillReturned).
  { pose proof Hs as Hv. vm_compute in Hv. injection Hv as <-. reflexivity. }
  split; [exact Hk|].
  destruct (Kill_waits_for_Done os None ["yes"%string] [] w _ ls _ Hp Hs)
    as (_ & _ & _ & _ & _ & Hret & _).
  destruct (Hret 0%nat Hk) as (Hd & Hwt & _).
  split; [exact Hd | exact Hwt].
Defined.

(* ================================================================== *)
(** * Part III: further properties of the code                         *)
(* ================================================================== *)

(** ** The limiter on every input *)

Lemma leading_split (ch : list input) :
  ch = map Recv (leading ch) ++ after_leading ch.
Proof.
  induction ch as [|[m|] ch IH]; cbn [leading after_leading]; try reflexivity.
  destruct (is_end m); [reflexivity|]. cbn [map app]. now f_equal.
Qed.

Lemma leading_non_terminal (ch : list input) :
  forallb non_terminal (leading ch) = true.
Proof.
  induction ch as [|[m|] ch IH]; cbn [leading]; try reflexivity.
  destruct (is_end m) eqn:Hm; [reflexivity|].
  cbn [forallb]. unfold non_terminal at 1. now rewrite Hm.
Qed.

Lemma after_leading_stops (ch : list input) :
  after_leading ch = [] \/
  (exists rest, after_leading ch = Closed :: rest) \/
  (exists e rest, after_leading ch = Recv e :: rest /\ is_end e = true).
Proof.
  induction ch as [|[m|] ch IH]; cbn [after_leading]; eauto.
  destruct (is_end m) eqn:Hm; eauto 6.
Qed.

Lemma len_leading (ch : list input) : len (leading ch) <= len ch.
Proof.
  induction ch as [|[m|] ch IH]; cbn [leading].
  - apply Z.le_refl.
  - pose proof (len_nonneg ch) as Hn.
    destruct (is_end m); rewrite ?len_cons; [change (len (@nil Message)) with 0|]; lia.
  - apply len_nonneg.
Qed.

(** The limiter at the point where its input stops: only an [end]
    message makes it act, and it passes that message on. *)
Lemma limiter_loop_stop (n : Z) (ch : list input) :
  fst (limiter_loop n (after_leading ch)) = map ToDest (stopping_end ch) /\
  (after_leading ch = [] -> snd (limiter_loop n (after_leading ch)) = Blocked n) /\
  (after_leading ch <> [] -> snd (limiter_loop n (after_leading ch)) = Exited n).
Proof.
  unfold stopping_end.
  destruct (after_leading_stops ch)
    as [H | [(rest & H) | (e & rest & H & He)]]; rewrite H.
  - repeat split. intros Hne. now elim Hne.
  - repeat split. intros Hnil. discriminate Hnil.
  - rewrite limiter_loop_end by assumption. repeat split.
    intros Hnil. discriminate Hnil.
Qed.

Lemma stopping_end_is_end (ch : list input) :
  forallb is_end (stopping_end ch) = true /\
  (List.length (stopping_end ch) <= 1)%nat.
Proof.
  unfold stopping_end.
  destruct (after_leading_stops ch)
    as [H | [(rest & H) | (e & rest & H & He)]]; rewrite H; cbn; try lia.
  rewrite He. split; [reflexivity | lia].
Qed.

Lemma filter_none {A : Type} (f g : A -> bool) (l : list A) :
  (forall a, f a = true -> g a = false) ->
  forallb f l = true -> filter g l = [].
Proof.
  intros Hfg. induction l as [|a l IH]; cbn; intros H; [reflexivity|].
  apply andb_true_iff in H as [Ha Hl]. rewrite (Hfg a Ha). now apply IH.
Qed.

Lemma is_end_not_non_terminal (m : Message) :
  is_end m = true -> non_terminal m = false.
Proof. unfold non_terminal. now intros ->. Qed.

(** X1: at most [msgLimit] non-terminal messages.  The limiter passes
    every one of them on, unchanged and in order, and asks for no kill,
    whether the input then goes on, ends with an [end] message (which is
    passed on too) or is closed. *)
Theorem limiter_transparent_under_limit
  (ms : list Message) (e : Message) (rest : list input) :
  forallb non_terminal ms = true ->
  len ms <= msgLimit ->
  is_end e = true ->
  limiter (map Recv ms) = (map ToDest ms, Blocked (len ms)) /\
  limiter (map Recv ms ++ Recv e :: rest) =
    (map ToDest (ms ++ [e]), Exited (len ms)) /\
  limiter (map Recv ms ++ Closed :: rest) = (map ToDest ms, Exited (len ms)) /\
  to_kill (fst (limiter (map Recv ms ++ Recv e :: rest))) = [].
Proof.
  intros Hnt Hlen He. pose proof msgLimit_bounds as Hb.
  assert (Hrun : forall tail,
            limiter (map Recv ms ++ tail) =
            (map ToDest ms ++ fst (limiter_loop (len ms) tail),
             snd (limiter_loop (len ms) tail))).
  { intros tail. unfold limiter.
    rewrite limiter_loop_forward by (try assumption; lia).
    now rewrite Z.add_0_l. }
  assert (Hend : limiter (map Recv ms ++ Recv e :: rest) =
                 (map ToDest (ms ++ [e]), Exited (len ms))).
  { rewrite Hrun, limiter_loop_end by assumption. cbn [fst snd].
    now rewrite map_app. }
  split; [|split; [exact Hend|split]].
  - rewrite <- (app_nil_r (map Recv ms)), Hrun. cbn [limiter_loop fst snd].
    now rewrite app_nil_r.
  - rewrite Hrun. cbn [limiter_loop fst snd]. now rewrite app_nil_r.
  - rewrite Hend. cbn [fst]. apply to_kill_map.
Qed.

Lemma limiter_transparent_under_limit_witness :
  let ms := repeat (mkMessage "7" "stdout" "line") 1000 in
  let e := mkMessage "7" "end" "" in
  limiter (map Recv ms ++ [Recv e]) = (map ToDest (ms ++ [e]), Exited 1000).
Proof.
  intros ms e.
  assert (H1 : forallb non_terminal ms = true) by (vm_compute; reflexivity).
  assert (H2 : len ms <= msgLimit) by (vm_compute; discriminate).
  assert (H3 : is_end e = true) by reflexivity.
  destruct (limiter_transparent_under_limit ms e [] H1 H2 H3) as (_ & H & _).
  exact H.
Defined.

(** X2: any input whatever, shorter than the range of the counter.  The
    destination receives the first [msgLimit] of the non-terminal
    messages that come before the input stops, followed by the [end]
    message that stops it, if there is one; the kill channel receives
    one request, for message number [msgLimit + 1], exactly when there
    is such a message.  So never more than [msgLimit] non-terminal
    messages, never more than one [end] message and never more than one
    kill request. *)
Theorem limiter_on_any_input (ch : list input) (d : Message) :
  len ch <= max_int ->
  let acts := fst (limiter ch) in
  to_dest acts = firstn limit (leading ch) ++ stopping_end ch /\
  to_kill acts =
    (if (limit <? List.length (leading ch))%nat
     then [kill_request (nth limit (leading ch) d)] else []) /\
  (List.length (filter non_terminal (to_dest acts)) <= limit)%nat /\
  (List.length (filter is_end (to_dest acts)) <= 1)%nat /\
  (List.length (to_kill acts) <= 1)%nat.
Proof.
  intros Hlen acts. pose proof msgLimit_bounds as Hb.
  pose proof (leading_non_terminal ch) as Hnt.
  pose proof (len_leading ch) as Hll.
  destruct (stopping_end_is_end ch) as [Hse Hsl].
  assert (Hacts :
    to_dest acts = firstn limit (leading ch) ++ stopping_end ch /\
    to_kill acts =
      (if (limit <? List.length (leading ch))%nat
       then [kill_request (nth limit (leading ch) d)] else [])).
  { assert (Hsplit : limiter ch =
                     limiter (map Recv (leading ch) ++ after_leading ch))
      by now rewrite <- leading_split.
    unfold acts. rewrite Hsplit.
    destruct (limiter_loop_stop (len (leading ch)) ch) as (Hstop & _).
    destruct (Z.le_gt_cases (len (leading ch)) msgLimit) as [Hle | Hgt].
    - unfold limiter. rewrite limiter_loop_forward by (try assumption; lia).
      rewrite Z.add_0_l. cbn [fst]. rewrite Hstop.
      rewrite to_dest_app, to_kill_app, !to_dest_map, !to_kill_map.
      rewrite firstn_all2 by (unfold limit, len in *; lia).
      assert (Hf : (limit <? List.length (leading ch))%nat = false)
        by (apply Nat.ltb_ge; unfold limit, len in *; lia).
      now rewrite Hf.
    - rewrite (limiter_over_limit (leading ch) d) by (try assumption; lia).
      cbn [fst]. rewrite Hstop.
      rewrite to_dest_app, to_kill_app, to_dest_map, to_kill_map.
      cbn [to_dest to_kill flat_map app].
      fold (to_dest (map ToDest (stopping_end ch))).
      fold (to_kill (map ToDest (stopping_end ch))).
      rewrite to_dest_map, to_kill_map.
      assert (Hf : (limit <? List.length (leading ch))%nat = true)
        by (apply Nat.ltb_lt; unfold limit, len in *; lia).
      now rewrite Hf. }
  destruct Hacts as [Hd Hk]. split; [exact Hd|]. split; [exact Hk|].
  rewrite Hd, Hk, !filter_app.
  rewrite (filter_all non_terminal (firstn limit (leading ch)))
    by now apply forallb_firstn.
  rewrite (filter_none is_end non_terminal (stopping_end ch))
    by (assumption || apply is_end_not_non_terminal).
  rewrite (filter_none non_terminal is_end (firstn limit (leading ch)))
    by (apply is_end_non_terminal || now apply forallb_firstn).
  rewrite (filter_all is_end (stopping_end ch)) by assumption.
  rewrite app_nil_r. cbn [app]. split; [apply firstn_le_length|].
  split; [exact Hsl|].
  destruct (limit <? List.length (leading ch))%nat; cbn; lia.
Qed.

Lemma limiter_on_any_input_witness :
  let out := mkMessage "7" "stdout" "x" in
  let ch := map Recv (repeat out 1003) ++
            [Recv (mkMessage "7" "end" ""); Recv out; Closed] in
  (List.length (filter non_terminal (to_dest (fst (limiter ch)))) <= limit)%nat /\
  (List.length (to_kill (fst (limiter ch))) <= 1)%nat.
Proof.
  intros out ch.
  assert (H : len ch <= max_int) by (vm_compute; discriminate).
  destruct (limiter_on_any_input ch out H) as (_ & _ & H1 & _ & H2).
  split; [exact H1 | exact H2].
Defined.

(** X3: the goroutine is gone after an [end] message or the close of
    its input: whatever is sent on its channel afterwards changes
    neither what it has done nor its state. *)
Theorem limiter_ignores_after_stop
  (ch : list input) (e : Message) (rest : list input) :
  is_end e = true ->
  limiter (ch ++ Recv e :: rest) = limiter (ch ++ [Recv e]) /\
  limiter (ch ++ Closed :: rest) = limiter (ch ++ [Closed]).
Proof.
  intros He. unfold limiter. generalize 0 as n.
  induction ch as [|[m|] ch IH]; intros n.
  - cbn [app]. rewrite !limiter_loop_end by assumption. split; reflexivity.
  - cbn [app limiter_loop].
    destruct (limiter_body n m) as [[acts n'] [|]].
    + destruct (IH n') as [-> ->]. split; reflexivity.
    + split; reflexivity.
  - split; reflexivity.
Qed.

Lemma limiter_ignores_after_stop_witness :
  let a := mkMessage "7" "stdout" "x" in
  let e := mkMessage "7" "end" "" in
  limiter ([Recv a] ++ Recv e :: [Recv a; Recv a]) = limiter ([Recv a] ++ [Recv e]).
Proof.
  intros a e.
  exact (proj1 (limiter_ignores_after_stop [Recv a] e [Recv a; Recv a] eq_refl)).
Defined.

(** X4: the counter at the end of its range.  At [max_int] a
    non-terminal message is dropped and [n++] wraps to [min_int]; the
    messages after it are below the limit again and are passed on. *)
Theorem limiter_counter_wraps (m : Message) (ms : list Message) :
  non_terminal m = true ->
  forallb non_terminal ms = true ->
  len ms <= max_int ->
  limiter_loop max_int (Recv m :: map Recv ms) =
  (map ToDest ms, Blocked (min_int + len ms)).
Proof.
  intros Hm Hms Hlen. pose proof msgLimit_bounds as Hb.
  cbn [limiter_loop].
  rewrite limiter_body_drop by (try lia; now apply is_end_non_terminal).
  rewrite int_incr_max.
  rewrite <- (app_nil_r (map Recv ms)).
  rewrite limiter_loop_forward; try assumption; try lia.
  - cbn [limiter_loop fst snd app]. now rewrite app_nil_r.
  - assert (Hsum : min_int + max_int = -1) by reflexivity. lia.
Qed.

Lemma limiter_counter_wraps_witness :
  let a := mkMessage "7" "stdout" "x" in
  limiter_loop max_int [Recv a; Recv a; Recv a] =
  ([ToDest a; ToDest a], Blocked (min_int + 2)).
Proof.
  intros a.
  assert (H : len [a; a] <= max_int) by (vm_compute; discriminate).
  exact (limiter_counter_wraps a [a; a] eq_refl eq_refl H).
Defined.

(** ** What a process sends *)

Lemma steps_snoc (ls : list label) (l : label) :
  forall s s' : System,
  steps (ls ++ [l]) s = Some s' ->
  exists s1 : System, steps ls s = Some s1 /\ step l s1 = Some s'.
Proof.
  induction ls as [|l0 ls IH]; intros s s' H; cbn [app steps] in *.
  - exists s. split; [reflexivity|]. now destruct (step l s).
  - destruct (step l0 s) as [s0|]; [now apply IH | discriminate].
Qed.

Lemma writes_of_app (i : string) (ls ls' : list label) :
  writes_of i (ls ++ ls') = writes_of i ls ++ writes_of i ls'.
Proof.
  induction ls as [|[st b| | | |] ls IH]; cbn [app writes_of]; try assumption.
  - reflexivity.
  - now f_equal.
Qed.

Lemma init_output_inv (out0 : chan) (i : string) (c : Cmd) :
  Stdout c = mkWriter i "stdout" -> Stderr c = mkWriter i "stderr" ->
  output_inv out0 i [] (init_system (mkProcess i out0 false (Some c))).
Proof.
  intros Ho He. split; [now apply init_lifecycle_inv|]. split.
  - cbn. now rewrite app_nil_r.
  - intros status [].
Qed.

Lemma step_output_inv (out0 : chan) (i : string) (ls : list label)
  (l : label) (s s' : System) :
  output_inv out0 i ls s -> step l s = Some s' ->
  output_inv out0 i (ls ++ [l]) s'.
Proof.
  intros (Hinv & Hout & Hex) Hstep.
  split; [eapply step_lifecycle_inv; eassumption|].
  destruct Hinv as (Hid & (c & Hrun & Hso & Hse) & (pre & Hpre & Hw) & Hk).
  destruct s as [[pid pout pdone prun] ch sg wt ks].
  unfold end_part in *.
  cbn [proc id out Done run child wait_task kill_calls] in *. subst pid.
  rewrite writes_of_app.
  destruct l as [st b | status | | h | k]; cbn [step] in Hstep.
  - (* the child writes *)
    cbn [child proc run] in Hstep. destruct ch as [|fin]; [|discriminate].
    rewrite Hrun in Hstep. cbn in Hstep. injection Hstep as <-.
    cbn [proc out child wait_task writes_of].
    assert (Hwt : wt = WaitCmd).
    { destruct wt as [|err| |]; [reflexivity| | |].
      - destruct Hw as (_ & _ & Hc). discriminate Hc.
      - destruct Hw as (err & _ & _ & Hc). discriminate Hc.
      - destruct Hw as (err & _ & _ & Hc). discriminate Hc. }
    subst wt. split.
    + rewrite Hout, !app_nil_r, map_app, app_assoc. cbn [map]. do 3 f_equal.
      destruct st; [rewrite Hso | rewrite Hse]; reflexivity.
    + intros status Hin. apply in_app_or in Hin as [Hin | [Hin | []]].
      * specialize (Hex status Hin). discriminate Hex.
      * discriminate Hin.
  - (* the child exits *)
    cbn [child] in Hstep. destruct ch as [|fin]; [|discriminate].
    injection Hstep as <-. cbn [proc out child wait_task writes_of].
    assert (Hwt : wt = WaitCmd).
    { destruct wt as [|err| |]; [reflexivity| | |].
      - destruct Hw as (_ & _ & Hc). discriminate Hc.
      - destruct Hw as (err & _ & _ & Hc). discriminate Hc.
      - destruct Hw as (err & _ & _ & Hc). discriminate Hc. }
    subst wt. split.
    + now rewrite Hout, !app_nil_r.
    + intros status' Hin. apply in_app_or in Hin as [Hin | [Hin | []]].
      * specialize (Hex status' Hin). discriminate Hex.
      * now injection Hin as <-.
  - (* a statement of wait *)
    unfold wait_step in Hstep. cbn [wait_task child proc signals kill_calls] in Hstep.
    assert (Hex' : forall status, In (ChildExits status) (ls ++ [WaitStep]) ->
                                  ch = Finished status).
    { intros status Hin. apply in_app_or in Hin as [Hin | [Hin | []]];
        [now apply Hex | discriminate Hin]. }
    destruct wt as [|err| |].
    + destruct ch as [|fin]; [discriminate|]. injection Hstep as <-.
      cbn [proc out child wait_task writes_of]. split; [|exact Hex'].
      now rewrite Hout, !app_nil_r.
    + injection Hstep as <-. destruct Hw as (_ & _ & Hc). subst ch.
      cbn [proc out child wait_task writes_of end_ set_out id].
      split; [|exact Hex'].
      rewrite Hout, !app_nil_r, map_app, app_assoc. reflexivity.
    + injection Hstep as <-. destruct Hw as (err & _ & _ & Hc). subst ch.
      cbn [proc out child wait_task writes_of set_Done]. split; [|exact Hex'].
      now rewrite Hout, !app_nil_r.
    + discriminate.
  - (* a call of Kill *)
    injection Hstep as <-.
    assert (Hex' : forall status, In (ChildExits status) (ls ++ [KillCall h]) ->
                                  ch = Finished status).
    { intros status Hin. apply in_app_or in Hin as [Hin | [Hin | []]];
        [now apply Hex | discriminate Hin]. }
    destruct h as [q|]; cbn [Kill proc out child wait_task writes_of];
      (split; [|exact Hex']); now rewrite Hout, !app_nil_r.
  - (* a statement of Kill *)
    assert (Hex' : forall status, In (ChildExits status) (ls ++ [KillStep k]) ->
                                  ch = Finished status).
    { intros status Hin. apply in_app_or in Hin as [Hin | [Hin | []]];
        [now apply Hex | discriminate Hin]. }
    unfold kill_step in Hstep. cbn [kill_calls proc child signals wait_task Done] in Hstep.
    destruct (nth_error ks k) as [[| |]|]; try discriminate.
    + injection Hstep as <-. cbn [proc out child wait_task writes_of].
      split; [|exact Hex']. now rewrite Hout, !app_nil_r.
    + destruct pdone; [|discriminate]. injection Hstep as <-.
      cbn [proc out child wait_task writes_of].
      split; [|exact Hex']. now rewrite Hout, !app_nil_r.
Qed.

Lemma steps_output_inv (out0 : chan) (i : string) (s0 : System) :
  output_inv out0 i [] s0 ->
  forall (ls : list label) (s : System),
  steps ls s0 = Some s -> output_inv out0 i ls s.
Proof.
  intros H0 ls. induction ls as [|l ls IH] using rev_ind; intros s Hs.
  - cbn in Hs. now injection Hs as <-.
  - apply steps_snoc in Hs as (s1 & Hs1 & Hstep).
    eapply step_output_inv; [|exact Hstep]. now apply IH.
Qed.

Lemma started_output_inv (os_start : Cmd -> option error)
  (dir : option string) (args : list string) (out0 : chan) (w : World)
  (p : Process) (ls : list label) (s : System) :
  snd (StartProcess os_start dir args out0 w) = Some p ->
  steps ls (init_system p) = Some s ->
  output_inv out0 (id p) ls s.
Proof.
  intros Hp Hsteps.
  destruct (StartProcess_cases os_start dir args out0 w)
    as [(err & Hr) | (c & Hso & Hse & Hr)]; rewrite Hr in Hp; cbn [snd] in Hp;
    [discriminate|].
  injection Hp as <-. cbn [id].
  eapply steps_output_inv; [|exact Hsteps]. now apply init_output_inv.
Qed.

Lemma emitted_app (out0 : chan) (ms : list Message) (s : System) :
  out (proc s) = out0 ++ map Send ms -> emitted out0 s = ms.
Proof.
  intros H. unfold emitted. rewrite H, skipn_app, skipn_all, Nat.sub_diag.
  cbn [skipn app]. apply messages_map_Send.
Qed.

Lemma end_part_of_state (out0 : chan) (i : string) (s : System) :
  lifecycle_inv out0 i s ->
  (ended s = false -> end_part i s = []) /\
  (ended s = true ->
     exists status : option error,
       child s = Finished status /\ end_part i s = [end_message i status]).
Proof.
  intros (_ & _ & (pre & _ & Hw) & _). unfold ended, end_part.
  destruct (wait_task s) as [|err| |].
  - split; [reflexivity | discriminate].
  - split; [reflexivity | discriminate].
  - destruct Hw as (err & _ & _ & Hc). rewrite Hc.
    split; [discriminate | now exists err].
  - destruct Hw as (err & _ & _ & Hc). rewrite Hc.
    split; [discriminate | now exists err].
Qed.

(** A step does not change the status of a child that has exited. *)
Lemma step_keeps_finished (l : label) (s s' : System) (status : option error) :
  step l s = Some s' -> child s = Finished status -> child s' = Finished status.
Proof.
  intros Hs Hc. destruct l as [st b | status' | | h | k]; cbn [step] in Hs.
  - rewrite Hc in Hs. discriminate.
  - rewrite Hc in Hs. discriminate.
  - unfold wait_step in Hs. destruct (wait_task s); rewrite ?Hc in Hs;
      try discriminate; now injection Hs as <-.
  - injection Hs as <-. now destruct h.
  - unfold kill_step in Hs.
    destruct (nth_error (kill_calls s) k) as [[| |]|]; try discriminate.
    + now injection Hs as <-.
    + destruct (Done (proc s)); [|discriminate]. now injection Hs as <-.
Qed.

Lemma steps_keep_finished (ls : list label) :
  forall (s s' : System) (status : option error),
  steps ls s = Some s' -> child s = Finished status -> child s' = Finished status.
Proof.
  induction ls as [|l ls IH]; intros s s' status H Hc; cbn [steps] in H.
  - now injection H as <-.
  - destruct (step l s) as [s1|] eqn:Hs; [|discriminate].
    apply (IH s1 s' status H). eapply step_keeps_finished; eassumption.
Qed.

(** A step other than the exit leaves a running child running. *)
Lemma step_keeps_running (l : label) (s s' : System) :
  step l s = Some s' -> child s = Running ->
  (forall status, l <> ChildExits status) -> child s' = Running.
Proof.
  intros Hs Hc Hl. destruct l as [st b | status' | | h | k]; cbn [step] in Hs.
  - rewrite Hc in Hs. destruct (run (proc s)); [|discriminate].
    cbn in Hs. now injection Hs as <-.
  - now elim (Hl status').
  - unfold wait_step in Hs. destruct (wait_task s); rewrite ?Hc in Hs;
      try discriminate; now injection Hs as <-.
  - injection Hs as <-. now destruct h.
  - unfold kill_step in Hs.
    destruct (nth_error (kill_calls s) k) as [[| |]|]; try discriminate.
    + now injection Hs as <-.
    + destruct (Done (proc s)); [|discriminate]. now injection Hs as <-.
Qed.

(** The status of a child that has exited is the one of its exit. *)
Lemma child_exit_in_labels (ls : list label) :
  forall (s s' : System) (status : option error),
  child s = Running -> steps ls s = Some s' -> child s' = Finished status ->
  In (ChildExits status) ls.
Proof.
  induction ls as [|l ls IH]; intros s s' status Hrun H Hc; cbn [steps] in H.
  - injection H as <-. congruence.
  - destruct (step l s) as [s1|] eqn:Hs; [|discriminate].
    destruct l as [st b | status' | | h | k];
      try (right; apply (IH s1 s' status); try assumption;
           eapply step_keeps_running; [exact Hs | exact Hrun | discriminate]).
    left. cbn [step] in Hs. rewrite Hrun in Hs. injection Hs as <-.
    pose proof (steps_keep_finished ls _ s' status' H eq_refl). congruence.
Qed.

(** X5: what a started process has sent, at every moment of its life
    and whatever calls of [Kill] are made: the chunks written by the
    child, each as one message of its stream with the bytes as body, in
    the order of the writes, followed, once [p.wait()] has sent it, by
    the [end] message whose body is the text of the exit status, empty
    for a clean exit. *)
Theorem process_output_is_relayed_writes (os_start : Cmd -> option error)
  (dir : option string) (args : list string) (out0 : chan) (w : World)
  (p : Process) (ls : list label) (s : System) :
  snd (StartProcess os_start dir args out0 w) = Some p ->
  steps ls (init_system p) = Some s ->
  out (proc s) = out0 ++ map Send (writes_of (id p) ls ++ end_part (id p) s) /\
  emitted out0 s = writes_of (id p) ls ++ end_part (id p) s /\
  (ended s = false -> end_part (id p) s = []) /\
  (ended s = true ->
     exists status : option error,
       In (ChildExits status) ls /\
       end_part (id p) s =
         [mkMessage (id p) "end"
            (match status with Some e => Error e | None => "" end)]).
Proof.
  intros Hp Hsteps.
  destruct (started_output_inv _ _ _ _ _ _ _ _ Hp Hsteps) as (Hinv & Hout & Hex).
  destruct (end_part_of_state out0 (id p) s Hinv) as [Hno Hyes].
  split; [exact Hout|]. split; [now apply emitted_app|]. split; [exact Hno|].
  intros He. destruct (Hyes He) as (status & Hc & Hend).
  exists status. split; [|exact Hend].
  eapply child_exit_in_labels; [|exact Hsteps|exact Hc]. reflexivity.
Qed.

Lemma process_output_is_relayed_writes_witness :
  let os := fun _ : Cmd => @None error in
  let w := mkWorld 65 [] [] in
  let hello := list_ascii_of_string "hello" in
  let oops := list_ascii_of_string "oops" in
  let ls := [ChildWrites ToStdout hello; KillCall (Some (new_process w []));
             ChildWrites ToStderr oops; KillStep 0;
             ChildExits (Some (mkError "signal: killed"));
             WaitStep; WaitStep] in
  exists (p : Process) (s : System),
    snd (StartProcess os None ["yes"%string] [] w) = Some p /\
    steps ls (init_system p) = Some s /\
    out (proc s) =
      map Send [mkMessage "A" "stdout" "hello"; mkMessage "A" "stderr" "oops";
                mkMessage "A" "end" "signal: killed"].
Proof.
  intros os w hello oops ls.
  set (p0 := set_run (new_process w []) (Some (cmd (new_process w []) None "yes" []))).
  assert (Hp : snd (StartProcess os None ["yes"%string] [] w) = Some p0)
    by (vm_compute; reflexivity).
  destruct (steps ls (init_system p0)) as [s0|] eqn:Hs;
    [|vm_compute in Hs; discriminate Hs].
  exists p0, s0. split; [exact Hp|]. split; [exact Hs|].
  destruct (process_output_is_relayed_writes os None ["yes"%string] [] w
              p0 ls s0 Hp Hs) as (Hout & _).
  rewrite Hout. pose proof Hs as Hv. vm_compute in Hv. injection Hv as <-.
  vm_compute. reflexivity.
Defined.

(** ** A run from start to end *)

Lemma writes_enabled (ws : list (std_stream * list ascii)) :
  forall s : System,
  child s = Running -> run (proc s) <> None ->
  exists s' : System,
    steps (write_labels ws) s = Some s' /\
    child s' = Running /\ run (proc s') = run (proc s) /\
    wait_task s' = wait_task s /\ kill_calls s' = kill_calls s /\
    Done (proc s') = Done (proc s) /\ id (proc s') = id (proc s).
Proof.
  induction ws as [|[st b] ws IH]; intros s Hc Hr.
  - exists s. repeat split. exact Hc.
  - cbn [write_labels map steps step fst snd]. rewrite Hc.
    destruct (run (proc s)) as [c|] eqn:Hrun; [|now elim Hr].
    cbn [Write].
    set (s1 := mkSystem _ _ _ _ _).
    destruct (IH s1) as (s' & Hs' & Hc' & Hr' & Hw' & Hk' & Hd' & Hi').
    + reflexivity.
    + unfold s1. cbn. rewrite Hrun. discriminate.
    + exists s'. split; [exact Hs'|]. unfold s1 in *.
      cbn [proc child wait_task kill_calls set_out run Done id] in *.
      rewrite Hrun in Hr'. repeat split; assumption.
Qed.

Lemma writes_of_write_labels (i : string) (ws : list (std_stream * list ascii)) :
  writes_of i (write_labels ws) =
  map (fun w => relay_message i (fst w) (snd w)) ws.
Proof.
  induction ws as [|[st b] ws IH]; cbn [write_labels map writes_of fst snd].
  - reflexivity.
  - f_equal. exact IH.
Qed.

(** X6: the child writes the chunks [ws], exits with [status], and
    [p.wait()] runs.  This run is possible whatever the chunks and the
    status are, and at its end the output channel has got one message
    for each chunk, in order, then the [end] message with the text of
    the status, and [Done] is closed. *)
Theorem process_runs_to_end (os_start : Cmd -> option error)
  (dir : option string) (args : list string) (out0 : chan) (w : World)
  (p : Process) (ws : list (std_stream * list ascii)) (status : option error) :
  snd (StartProcess os_start dir args out0 w) = Some p ->
  exists s : System,
    steps (write_labels ws ++ [ChildExits status; WaitStep; WaitStep; WaitStep])
      (init_system p) = Some s /\
    out (proc s) =
      out0 ++ map Send (map (fun c => relay_message (id p) (fst c) (snd c)) ws
                        ++ [end_message (id p) status]) /\
    Done (proc s) = true /\
    wait_task s = WaitDone /\
    child s = Finished status.
Proof.
  intros Hp.
  assert (Hrun : run (proc (init_system p)) <> None).
  { destruct (StartProcess_cases os_start dir args out0 w)
      as [(err & Hr) | (c & _ & _ & Hr)]; rewrite Hr in Hp; cbn [snd] in Hp;
      [discriminate|]. injection Hp as <-. discriminate. }
  destruct (writes_enabled ws (init_system p) eq_refl Hrun)
    as (s1 & Hs1 & Hc1 & _ & Hw1 & _).
  cbn [init_system wait_task] in Hw1.
  set (ls := write_labels ws ++ [ChildExits status; WaitStep; WaitStep; WaitStep]).
  assert (Hsteps : exists s, steps ls (init_system p) = Some s /\
                             wait_task s = WaitDone /\ child s = Finished status).
  { unfold ls. rewrite (steps_app _ _ _ _ Hs1).
    destruct s1 as [p1 ch1 sg1 wt1 ks1]. cbn [child wait_task] in Hc1, Hw1.
    subst ch1 wt1. eexists. split; [reflexivity|]. split; reflexivity. }
  destruct Hsteps as (s & Hs & Hwt & Hch). exists s.
  destruct (started_output_inv _ _ _ _ _ _ _ _ Hp Hs) as (Hinv & Hout & _).
  split; [exact Hs|]. split; [|split; [|split; [exact Hwt | exact Hch]]].
  - rewrite Hout. unfold ls, end_part. rewrite Hwt, Hch, writes_of_app.
    cbn [writes_of]. now rewrite app_nil_r, writes_of_write_labels.
  - now apply (Done_iff_WaitDone out0 (id p) s Hinv).
Qed.

Lemma process_runs_to_end_witness :
  let os := fun _ : Cmd => @None error in
  let w := mkWorld 65 [] [] in
  let ws := [(ToStdout, list_ascii_of_string "hello there");
             (ToStdout, list_ascii_of_string "hello cat")] in
  exists (p : Process) (s : System),
    snd (StartProcess os None ["./barbar"%string] [] w) = Some p /\
    steps (write_labels ws ++ [ChildExits None; WaitStep; WaitStep; WaitStep])
      (init_system p) = Some s /\
    out (proc s) =
      map Send [mkMessage "A" "stdout" "hello there";
                mkMessage "A" "stdout" "hello cat"; mkMessage "A" "end" ""].
Proof.
  intros os w ws.
  set (p0 := set_run (new_process w [])
               (Some (cmd (new_process w []) None "./barbar" []))).
  assert (Hp : snd (StartProcess os None ["./barbar"%string] [] w) = Some p0)
    by (vm_compute; reflexivity).
  destruct (process_runs_to_end os None ["./barbar"%string] [] w p0 ws None Hp)
    as (s & Hs & Hout & _).
  exists p0, s. split; [exact Hp|]. split; [exact Hs|].
  rewrite Hout. vm_compute. reflexivity.
Defined.

(** ** After the end *)

Lemma step_after_WaitDone (l : label) (s s' : System) (status : option error) :
  wait_task s = WaitDone -> child s = Finished status ->
  step l s = Some s' ->
  is_kill_label l = true /\ proc s' = proc s /\ child s' = child s /\
  signals s' = signals s /\ wait_task s' = WaitDone.
Proof.
  intros Hw Hc Hs. destruct l as [st b | status' | | h | k]; cbn [step] in Hs.
  - rewrite Hc in Hs. discriminate.
  - rewrite Hc in Hs. discriminate.
  - unfold wait_step in Hs. rewrite Hw in Hs. discriminate.
  - injection Hs as <-. destruct h; repeat split; exact Hw.
  - unfold kill_step in Hs. rewrite Hc in Hs.
    destruct (nth_error (kill_calls s) k) as [[| |]|]; try discriminate.
    + injection Hs as <-. repeat split; first [exact Hw | now rewrite Hc].
    + destruct (Done (proc s)); [|discriminate]. injection Hs as <-.
      repeat split; first [exact Hw | now rewrite Hc].
Qed.

(** X7: a process whose [Done] is closed is inert.  The only steps
    still possible are those of calls of [Kill]; they send nothing on
    the output channel, deliver no signal, and leave the process, the
    child and the goroutine [p.wait()] as they are. *)
Theorem process_inert_after_Done (os_start : Cmd -> option error)
  (dir : option string) (args : list string) (out0 : chan) (w : World)
  (p : Process) (ls ls' : list label) (s s' : System) :
  snd (StartProcess os_start dir args out0 w) = Some p ->
  steps ls (init_system p) = Some s ->
  Done (proc s) = true ->
  steps ls' s = Some s' ->
  forallb is_kill_label ls' = true /\
  proc s' = proc s /\
  child s' = child s /\
  signals s' = signals s /\
  wait_task s' = WaitDone.
Proof.
  intros Hp Hsteps Hd Hsteps'.
  destruct (started_output_inv _ _ _ _ _ _ _ _ Hp Hsteps) as (Hinv & _).
  destruct (Done_iff_WaitDone out0 (id p) s Hinv) as [Hiff Hdone].
  pose proof (proj1 Hiff Hd) as Hw.
  destruct (Hdone Hw) as [(status & Hc) _].
  clear - Hw Hc Hsteps'. revert s Hw Hc Hsteps'.
  induction ls' as [|l ls' IH]; intros s Hw Hc Hsteps'; cbn [steps] in Hsteps'.
  - injection Hsteps' as <-. repeat split. exact Hw.
  - destruct (step l s) as [s1|] eqn:Hs; [|discriminate].
    destruct (step_after_WaitDone l s s1 status Hw Hc Hs)
      as (Hl & Hp1 & Hc1 & Hg1 & Hw1).
    destruct (IH s1 Hw1 (eq_trans Hc1 Hc) Hsteps') as (Hls & Hp2 & Hc2 & Hg2 & Hw2).
    cbn [forallb]. rewrite Hl, Hls. repeat split; congruence.
Qed.

Lemma process_inert_after_Done_witness :
  let os := fun _ : Cmd => @None error in
  let w := mkWorld 65 [] [] in
  let h := new_process w [] in
  let ls := [ChildWrites ToStdout (list_ascii_of_string "y");
             ChildExits None; WaitStep; WaitStep; WaitStep] in
  let ls' := [KillCall (Some h); KillStep 0; KillCall None; KillStep 0] in
  exists (p : Process) (s s' : System),
    snd (StartProcess os None ["yes"%string] [] w) = Some p /\
    steps ls (init_system p) = Some s /\
    steps ls' s = Some s' /\
    proc s' = proc s /\ signals s' = signals s.
Proof.
  intros os w h ls ls'.
  set (p0 := set_run (new_process w []) (Some (cmd (new_process w []) None "yes" []))).
  assert (Hp : snd (StartProcess os None ["yes"%string] [] w) = Some p0)
    by (vm_compute; reflexivity).
  destruct (steps ls (init_system p0)) as [s0|] eqn:Hs;
    [|vm_compute in Hs; discriminate Hs].
  assert (Hd : Done (proc s0) = true).
  { pose proof Hs as Hv. vm_compute in Hv. injection Hv as <-. reflexivity. }
  destruct (steps ls' s0) as [s1|] eqn:Hs';
    [|pose proof Hs as Hv; vm_compute in Hv; injection Hv as Hv;
      rewrite <- Hv in Hs'; vm_compute in Hs'; discriminate Hs'].
  exists p0, s0, s1. split; [exact Hp|]. split; [exact Hs|]. split; [exact Hs'|].
  destruct (process_inert_after_Done os None ["yes"%string] [] w p0 ls ls' s0 s1
              Hp Hs Hd Hs') as (_ & H1 & _ & H2 & _).
  split; [exact H1 | exact H2].
Defined.

(** ** While the child runs *)

(** X8: as long as the child runs, the goroutine [p.wait()] is in
    [p.run.Wait()], [Done] is open, no call of [Kill] has returned, and
    what the process has sent is the relayed output and no [end]
    message. *)
Theorem nothing_ends_while_child_runs (os_start : Cmd -> option error)
  (dir : option string) (args : list string) (out0 : chan) (w : World)
  (p : Process) (ls : list label) (s : System) :
  snd (StartProcess os_start dir args out0 w) = Some p ->
  steps ls (init_system p) = Some s ->
  child s = Running ->
  wait_task s = WaitCmd /\
  Done (proc s) = false /\
  Forall (fun k => k <> KillReturned) (kill_calls s) /\
  emitted out0 s = writes_of (id p) ls /\
  end_messages (map Send (emitted out0 s)) = [].
Proof.
  intros Hp Hsteps Hc.
  destruct (started_output_inv _ _ _ _ _ _ _ _ Hp Hsteps) as (Hinv & Hout & _).
  pose proof Hinv as (_ & _ & (pre & Hpre & Hw) & Hk).
  assert (Hwt : wait_task s = WaitCmd).
  { destruct (wait_task s) as [|err| |]; [reflexivity| | |].
    - destruct Hw as (_ & _ & Hf). congruence.
    - destruct Hw as (err & _ & _ & Hf). congruence.
    - destruct Hw as (err & _ & _ & Hf). congruence. }
  rewrite Hwt in Hw. destruct Hw as [Ho Hd].
  assert (Hem : emitted out0 s = writes_of (id p) ls).
  { apply emitted_app. rewrite Hout. unfold end_part. rewrite Hwt.
    now rewrite app_nil_r. }
  split; [exact Hwt|]. split; [exact Hd|]. split; [|split; [exact Hem|]].
  - eapply Forall_impl; [|exact Hk]. intros k Hret ->.
    specialize (Hret eq_refl). congruence.
  - unfold end_messages. rewrite messages_map_Send.
    assert (Hpre' : emitted out0 s = pre) by now apply emitted_app.
    rewrite Hpre'. eapply filter_is_end_outputs; exact Hpre.
Qed.

Lemma nothing_ends_while_child_runs_witness :
  let os := fun _ : Cmd => @None error in
  let w := mkWorld 65 [] [] in
  let h := new_process w [] in
  let ls := [KillCall (Some h); ChildWrites ToStdout (list_ascii_of_string "y");
             KillStep 0; ChildWrites ToStderr (list_ascii_of_string "n")] in
  exists (p : Process) (s : System),
    snd (StartProcess os None ["yes"%string] [] w) = Some p /\
    steps ls (init_system p) = Some s /\
    child s = Running /\
    Done (proc s) = false /\
    kill_calls s = [KillRecv] /\
    emitted [] s = [mkMessage "A" "stdout" "y"; mkMessage "A" "stderr" "n"].
Proof.
  intros os w h ls.
  set (p0 := set_run (new_process w []) (Some (cmd (new_process w []) None "yes" []))).
  assert (Hp : snd (StartProcess os None ["yes"%string] [] w) = Some p0)
    by (vm_compute; reflexivity).
  destruct (steps ls (init_system p0)) as [s0|] eqn:Hs;
    [|vm_compute in Hs; discriminate Hs].
  assert (Hv : child s0 = Running /\ kill_calls s0 = [KillRecv]).
  { pose proof Hs as Hv. vm_compute in Hv. injection Hv as <-. split; reflexivity. }
  destruct Hv as [Hc Hk].
  exists p0, s0. split; [exact Hp|]. split; [exact Hs|]. split; [exact Hc|].
  destruct (nothing_ends_while_child_runs os None ["yes"%string] [] w p0 ls s0
              Hp Hs Hc) as (_ & Hd & _ & Hem & _).
  split; [exact Hd|]. split; [exact Hk|]. rewrite Hem. vm_compute. reflexivity.
Defined.

(** ** A process behind a limiter *)

Lemma limiter_then_end (ms : list Message) (e : Message) :
  forallb non_terminal ms = true ->
  is_end e = true ->
  len ms <= max_int ->
  limiter (map Recv ms ++ [Recv e]) =
  (map ToDest (firstn limit ms) ++
     (if (limit <? List.length ms)%nat
      then [ToKill (kill_request (nth limit ms e))] else []) ++ [ToDest e],
   Exited (len ms)).
Proof.
  intros Hnt He Hlen. pose proof msgLimit_bounds as Hb.
  destruct (Z.le_gt_cases (len ms) msgLimit) as [Hle | Hgt].
  - unfold limiter. rewrite limiter_loop_forward by (try assumption; lia).
    rewrite Z.add_0_l, limiter_loop_end by assumption. cbn [fst snd].
    rewrite firstn_all2 by (unfold limit, len in *; lia).
    assert (Hf : (limit <? List.length ms)%nat = false)
      by (apply Nat.ltb_ge; unfold limit, len in *; lia).
    now rewrite Hf.
  - rewrite (limiter_over_limit ms e) by (try assumption; lia).
    rewrite limiter_loop_end by assumption. cbn [fst snd].
    assert (Hf : (limit <? List.length ms)%nat = true)
      by (apply Nat.ltb_lt; unfold limit, len in *; lia).
    now rewrite Hf.
Qed.

Lemma writes_of_outputs (i : string) (ls : list label) :
  Forall (is_output_of i) (writes_of i ls).
Proof.
  induction ls as [|[st b| | | |] ls IH]; cbn [writes_of]; try assumption.
  - constructor.
  - constructor; [|exact IH]. split; [reflexivity|]. destruct st; cbn; auto.
Qed.

(** X9: a process started on the input channel of a limiter.  When
    its life is over, the destination has received the first
    [msgLimit] messages of its output, in order, and then its [end]
    message; and the kill channel has received one request if the
    output was longer than that, none otherwise.  The request carries
    the id of the process. *)
Theorem process_behind_limiter (os_start : Cmd -> option error)
  (dir : option string) (args : list string) (out0 : chan) (w : World)
  (p : Process) (ls : list label) (s : System) :
  snd (StartProcess os_start dir args out0 w) = Some p ->
  steps ls (init_system p) = Some s ->
  ended s = true ->
  len (writes_of (id p) ls) <= max_int ->
  let run := limiter (map Recv (emitted out0 s)) in
  to_dest (fst run) = firstn limit (writes_of (id p) ls) ++ end_part (id p) s /\
  to_kill (fst run) =
    (if (limit <? List.length (writes_of (id p) ls))%nat
     then [mkMessage (id p) "kill" ""] else []) /\
  (exists e : Message, end_part (id p) s = [e] /\ is_end e = true) /\
  snd run = Exited (len (writes_of (id p) ls)).
Proof.
  intros Hp Hsteps He Hlen run.
  destruct (started_output_inv _ _ _ _ _ _ _ _ Hp Hsteps) as (Hinv & Hout & _).
  destruct (end_part_of_state out0 (id p) s Hinv) as [_ Hyes].
  destruct (Hyes He) as (status & _ & Hend).
  pose proof (writes_of_outputs (id p) ls) as Hws.
  pose proof (outputs_non_terminal _ _ Hws) as Hnt.
  set (e := end_message (id p) status) in *.
  assert (Hrun : run =
    (map ToDest (firstn limit (writes_of (id p) ls)) ++
       (if (limit <? List.length (writes_of (id p) ls))%nat
        then [ToKill (kill_request (nth limit (writes_of (id p) ls) e))]
        else []) ++ [ToDest e],
     Exited (len (writes_of (id p) ls)))).
  { unfold run. rewrite (emitted_app out0 _ s Hout), Hend, map_app.
    now apply limiter_then_end. }
  rewrite Hrun, Hend. cbn [fst snd].
  rewrite !to_dest_app, !to_kill_app, to_dest_map, to_kill_map.
  split; [|split; [|split; [now exists e | reflexivity]]].
  - destruct (limit <? List.length (writes_of (id p) ls))%nat; reflexivity.
  - destruct (limit <? List.length (writes_of (id p) ls))%nat eqn:Hlt;
      [|reflexivity].
    cbn. unfold kill_request. do 2 f_equal.
    apply Nat.ltb_lt in Hlt.
    assert (Hin : In (nth limit (writes_of (id p) ls) e) (writes_of (id p) ls))
      by now apply nth_In.
    rewrite Forall_forall in Hws. now destruct (Hws _ Hin).
Qed.

Lemma process_behind_limiter_witness :
  let os := fun _ : Cmd => @None error in
  let w := mkWorld 65 [] [] in
  let y := list_ascii_of_string "y" in
  let ls := write_labels (repeat (ToStdout, y) 1002) ++
            [ChildExits (Some (mkError "signal: killed"));
             WaitStep; WaitStep; WaitStep] in
  exists (p : Process) (s : System),
    snd (StartProcess os None ["yes"%string] [] w) = Some p /\
    steps ls (init_system p) = Some s /\
    to_dest (fst (limiter (map Recv (emitted [] s)))) =
      repeat (mkMessage "A" "stdout" "y") 1000 ++
      [mkMessage "A" "end" "signal: killed"] /\
    to_kill (fst (limiter (map Recv (emitted [] s)))) =
      [mkMessage "A" "kill" ""].
Proof.
  intros os w y ls.
  set (p0 := set_run (new_process w []) (Some (cmd (new_process w []) None "yes" []))).
  assert (Hp : snd (StartProcess os None ["yes"%string] [] w) = Some p0)
    by (vm_compute; reflexivity).
  destruct (steps ls (init_system p0)) as [s0|] eqn:Hs;
    [|vm_compute in Hs; discriminate Hs].
  assert (He : ended s0 = true).
  { pose proof Hs as Hv. vm_compute in Hv. injection Hv as <-. reflexivity. }
  assert (Hlen : len (writes_of (id p0) ls) <= max_int)
    by (vm_compute; discriminate).
  exists p0, s0. split; [exact Hp|]. split; [exact Hs|].
  destruct (process_behind_limiter os None ["yes"%string] [] w p0 ls s0
              Hp Hs He Hlen) as (Hd & Hk & _).
  rewrite Hd, Hk. pose proof Hs as Hv. vm_compute in Hv. injection Hv as <-.
  split; vm_compute; reflexivity.
Defined.

(** ** Ids *)




Lemma valid_below_surrogates (j : Z) :
  0 <= j < surrogateMin -> valid_rune j = true.
Proof.
  unfold valid_rune, maxRune, surrogateMin, surrogateMax. intros Hj.
  assert (H1 : (0 <=? j) = true) by (apply Z.leb_le; lia).
  assert (H2 : (j <=? 1114111) = true) by (apply Z.leb_le; lia).
  assert (H3 : (55296 <=? j) = false) by (apply Z.leb_gt; lia).
  now rewrite H1, H2, H3.
Qed.

Lemma handle_ids_cons (h : option Process) (hs : list (option Process)) :
  handle_ids (h :: hs) =
  match h with Some p => [id p] | None => [] end ++ handle_ids hs.
Proof. reflexivity. Qed.

Lemma start_each_ids_in_range (os_start : Cmd -> option error)
  (calls : list (option string * list string)) :
  forall (w : World) (x : string),
  min_int <= uniq w -> uniq w + len calls <= max_int ->
  In x (handle_ids (start_each os_start calls w)) ->
  exists j : Z, uniq w <= j < uniq w + len calls /\ x = string_of_int j.
Proof.
  induction calls as [|[dir args] calls IH]; intros w x Hlo Hhi Hin.
  - destruct Hin.
  - cbn [start_each] in Hin. rewrite handle_ids_cons in Hin.
    rewrite len_cons in Hhi |- *. pose proof (len_nonneg calls) as Hn.
    destruct (StartProcess_uniq os_start dir args [] w) as [Hu Hid].
    rewrite int_incr_small in Hu by lia.
    apply in_app_or in Hin as [Hin | Hin].
    + destruct (snd (StartProcess os_start dir args [] w)) as [p|]; [|destruct Hin].
      destruct Hin as [<- | []]. exists (uniq w). split; [lia|]. now apply Hid.
    + apply IH in Hin; rewrite ?Hu; try lia.
      destruct Hin as (j & Hj & ->). exists j. split; [lia | reflexivity].
Qed.

(** X11: the ids of the first processes.  As long as the numbers taken
    from [uniq] stay below the surrogates (0xD800), the processes
    returned by calls of [StartProcess], made with any directories and
    arguments and whether or not some of the calls fail, have pairwise
    different ids. *)
Theorem first_ids_are_distinct (os_start : Cmd -> option error)
  (calls : list (option string * list string)) (w : World) :
  0 <= uniq w ->
  uniq w + len calls <= surrogateMin ->
  NoDup (handle_ids (start_each os_start calls w)).
Proof.
  revert w. induction calls as [|[dir args] calls IH]; intros w Hlo Hhi.
  - constructor.
  - cbn [start_each]. rewrite handle_ids_cons.
    rewrite len_cons in Hhi. pose proof (len_nonneg calls) as Hn.
    pose proof msgLimit_bounds as Hb.
    assert (Hs : surrogateMin < max_int) by reflexivity.
    destruct (StartProcess_uniq os_start dir args [] w) as [Hu Hid].
    rewrite int_incr_small in Hu by lia.
    assert (Hrest : NoDup (handle_ids
              (start_each os_start calls
                 (fst (fst (StartProcess os_start dir args [] w))))))
      by (apply IH; rewrite Hu; lia).
    destruct (snd (StartProcess os_start dir args [] w)) as [p|]; [|exact Hrest].
    cbn [app]. constructor; [|exact Hrest].
    intros Hin. apply start_each_ids_in_range in Hin; rewrite ?Hu; try lia.
    destruct Hin as (j & Hj & Heq). rewrite (Hid p eq_refl) in Heq.
    apply string_of_int_injective in Heq; [lia| |];
      apply valid_below_surrogates; lia.
Qed.

Lemma first_ids_are_distinct_witness :
  let os := fun c : Cmd =>
              if (Path c =? "true")%string then None
              else Some (mkError "exec: not found") in
  let calls := [(None, ["true"%string]); (None, []);
                (Some "/tmp"%string, ["nope"%string]); (None, ["true"%string])] in
  NoDup (handle_ids (start_each os calls (mkWorld uniq_init [] []))) /\
  List.length (handle_ids (start_each os calls (mkWorld uniq_init [] []))) = 2%nat.
Proof.
  intros os calls.
  assert (H1 : 0 <= uniq (mkWorld uniq_init [] [])) by (vm_compute; discriminate).
  assert (H2 : uniq (mkWorld uniq_init [] []) + len calls <= surrogateMin)
    by (vm_compute; discriminate).
  split.
  - exact (first_ids_are_distinct os calls (mkWorld uniq_init [] []) H1 H2).
  - vm_compute. reflexivity.
Defined.

(** ** Children and handles *)

Lemma StartProcess_child (os_start : Cmd -> option error)
  (dir : option string) (args : list string) (out0 : chan) (w : World) :
  match snd (StartProcess os_start dir args out0 w) with
  | Some p =>
      exists c : Cmd,
        run p = Some c /\
        Stdout c = mkWriter (id p) "stdout" /\
        Stderr c = mkWriter (id p) "stderr" /\
        children (fst (fst (StartProcess os_start dir args out0 w))) =
          c :: children w /\
        start_calls (fst (fst (StartProcess os_start dir args out0 w))) =
          c :: start_calls w
  | None =>
      children (fst (fst (StartProcess os_start dir args out0 w))) = children w
  end.
Proof.
  destruct args as [|name arg].
  - now rewrite StartProcess_empty.
  - destruct (os_start (cmd (new_process w out0) dir name arg)) as [err|] eqn:Hos.
    + now rewrite (StartProcess_failed _ _ _ _ _ _ _ Hos).
    + rewrite (StartProcess_started _ _ _ _ _ _ Hos). cbn [fst snd].
      eexists. repeat split.
Qed.

(** X12: children and handles go together.  After any calls of
    [StartProcess] the children started are exactly the commands held
    by the processes returned, newest first: a call that returns nil
    leaves no child behind, and a process returned has its child, whose
    two writers carry the id of the process. *)
Theorem children_are_the_handles (os_start : Cmd -> option error)
  (calls : list (option string * list string)) (w : World) :
  children (world_after_each os_start calls w) =
    rev (handle_cmds (start_each os_start calls w)) ++ children w /\
  Forall (fun h => match h with
                   | Some p =>
                       exists c : Cmd,
                         run p = Some c /\
                         Stdout c = mkWriter (id p) "stdout" /\
                         Stderr c = mkWriter (id p) "stderr"
                   | None => True
                   end) (start_each os_start calls w).
Proof.
  revert w. induction calls as [|[dir args] calls IH]; intros w.
  - split; [reflexivity | constructor].
  - cbn [start_each world_after_each].
    destruct (IH (fst (fst (StartProcess os_start dir args [] w)))) as [IHc IHf].
    pose proof (StartProcess_child os_start dir args [] w) as Hch.
    destruct (snd (StartProcess os_start dir args [] w)) as [p|].
    + destruct Hch as (c & Hrun & Hso & Hse & Hc & _). split.
      * rewrite IHc, Hc. unfold handle_cmds. cbn [flat_map]. rewrite Hrun.
        cbn [app rev]. now rewrite <- app_assoc.
      * constructor; [now exists c | exact IHf].
    + split; [now rewrite IHc, Hch | constructor; [exact I | exact IHf]].
Qed.

(** ** The goroutine [p.wait()] *)

Lemma step_wait_index (l : label) (s s' : System) :
  step l s = Some s' ->
  wait_pc_index (wait_task s') =
  (wait_pc_index (wait_task s) + wait_steps [l])%nat.
Proof.
  intros Hs. destruct l as [st b | status | | h | k]; cbn [step] in Hs.
  - destruct (child s); [|discriminate]. destruct (run (proc s)); [|discriminate].
    cbn in Hs. injection Hs as <-. cbn. now rewrite Nat.add_0_r.
  - destruct (child s); [|discriminate]. injection Hs as <-. cbn.
    now rewrite Nat.add_0_r.
  - unfold wait_step in Hs. destruct (wait_task s) eqn:Hw.
    + destruct (child s); [discriminate|]. now injection Hs as <-.
    + now injection Hs as <-.
    + now injection Hs as <-.
    + discriminate.
  - injection Hs as <-. destruct h; cbn; now rewrite Nat.add_0_r.
  - unfold kill_step in Hs.
    destruct (nth_error (kill_calls s) k) as [[| |]|]; try discriminate.
    + injection Hs as <-. cbn. now rewrite Nat.add_0_r.
    + destruct (Done (proc s)) eqn:Hd; [|discriminate]. injection Hs as <-. cbn.
      now rewrite Nat.add_0_r.
Qed.

Lemma wait_steps_app (ls ls' : list label) :
  wait_steps (ls ++ ls') = (wait_steps ls + wait_steps ls')%nat.
Proof.
  induction ls as [|[st b| | | |] ls IH]; cbn [app wait_steps]; lia.
Qed.

Lemma steps_wait_index (ls : list label) :
  forall s s' : System,
  steps ls s = Some s' ->
  wait_pc_index (wait_task s') = (wait_pc_index (wait_task s) + wait_steps ls)%nat.
Proof.
  induction ls as [|l ls IH]; intros s s' H; cbn [steps] in H.
  - injection H as <-. cbn. lia.
  - destruct (step l s) as [s1|] eqn:Hs; [|discriminate].
    rewrite (IH s1 s' H), (step_wait_index l s s1 Hs).
    change (l :: ls) with ([l] ++ ls). rewrite wait_steps_app. lia.
Qed.

(** X13: the goroutine [p.wait()] executes its three statements once.
    In every run of a started process it has taken at most three steps,
    as many as its position shows; [Done] is closed exactly when it has
    taken all three, so [close(p.Done)] is executed at most once; and a
    fourth step is never possible. *)
Theorem wait_runs_once (os_start : Cmd -> option error)
  (dir : option string) (args : list string) (out0 : chan) (w : World)
  (p : Process) (ls : list label) (s : System) :
  snd (StartProcess os_start dir args out0 w) = Some p ->
  steps ls (init_system p) = Some s ->
  wait_steps ls = wait_pc_index (wait_task s) /\
  (wait_steps ls <= 3)%nat /\
  (Done (proc s) = true <-> wait_steps ls = 3%nat) /\
  (wait_steps ls = 3%nat -> step WaitStep s = None).
Proof.
  intros Hp Hsteps.
  destruct (started_output_inv _ _ _ _ _ _ _ _ Hp Hsteps) as (Hinv & _).
  destruct (Done_iff_WaitDone out0 (id p) s Hinv) as [Hiff _].
  pose proof (steps_wait_index ls _ s Hsteps) as Hidx.
  cbn [init_system wait_task wait_pc_index] in Hidx.
  rewrite Nat.add_0_l in Hidx.
  split; [now symmetry|]. rewrite <- Hidx.
  split; [destruct (wait_task s); cbn; lia|]. split.
  - rewrite Hiff. destruct (wait_task s); cbn; split; intros H;
      try discriminate; try reflexivity; try lia.
  - intros H3. cbn [step]. unfold wait_step.
    destruct (wait_task s); cbn in H3; try discriminate; try lia. reflexivity.
Qed.

Lemma wait_runs_once_witness :
  let os := fun _ : Cmd => @None error in
  let w := mkWorld 65 [] [] in
  let ls := [ChildWrites ToStdout (list_ascii_of_string "y"); ChildExits None;
             WaitStep; KillCall None; WaitStep; WaitStep] in
  exists (p : Process) (s : System),
    snd (StartProcess os None ["yes"%string] [] w) = Some p /\
    steps ls (init_system p) = Some s /\
    Done (proc s) = true /\ step WaitStep s = None.
Proof.
  intros os w ls.
  set (p0 := set_run (new_process w []) (Some (cmd (new_process w []) None "yes" []))).
  assert (Hp : snd (StartProcess os None ["yes"%string] [] w) = Some p0)
    by (vm_compute; reflexivity).
  destruct (steps ls (init_system p0)) as [s0|] eqn:Hs;
    [|vm_compute in Hs; discriminate Hs].
  exists p0, s0. split; [exact Hp|]. split; [exact Hs|].
  destruct (wait_runs_once os None ["yes"%string] [] w p0 ls s0 Hp Hs)
    as (_ & _ & Hd & Hno).
  split; [apply Hd | apply Hno]; reflexivity.
Defined.
